(** * Player-lookup bot ([src/bot.py]): embedding and verified properties

    Python values coming out of [json.load] / [response.json()] are kept
    dynamically typed, as the code sees them.  A [str] is held as the
    [string] of its UTF-8 bytes: equality, emptiness, the removal of
    hyphens and the identifier pattern, which names ASCII characters
    only, read the same on the bytes as on the characters.  [str.lower]
    does not: [lower] below is its restriction to ASCII text, used for
    identifiers, and the statements about player names of any alphabet
    take [str.lower] as a function [str_lower] of which nothing is
    assumed. *)

From Stdlib Require Import ZArith Ascii String List Bool Lia Permutation.
From Stdlib Require Import Floats.PrimFloat.
From stdpp Require Import base list.
Import ListNotations.

Local Open Scope list_scope.
Local Open Scope string_scope.

(** ** Python values *)

Module Py.

(** A value produced by the JSON decoder.  A [dict] keeps insertion order
    (iteration yields the keys in that order); the decoder leaves every
    key at most once. *)
#[warnings="-register-all"]
Inductive value :=
| VNone
| VBool (b : bool)
| VInt (z : Z)
| VFloat (f : float)
| VStr (s : string)
| VList (items : list value)
| VDict (fields : list (string * value)).

(** Exceptions that reach the modelled code. *)
Inductive exn :=
| FileNotFoundError
| ValueError
| TypeError
| AttributeError
| ClientError
| TimeoutError.

Inductive result (A : Type) :=
| Ok (a : A)
| Raise (e : exn).
Arguments Ok {A} a.
Arguments Raise {A} e.

Definition bind {A B} (r : result A) (k : A -> result B) : result B :=
  match r with
  | Ok a => k a
  | Raise e => Raise e
  end.

Notation "'let*' x ':=' r 'in' k" := (bind r (fun x => k))
  (at level 10, x pattern, r at level 100, k at level 200).

Fixpoint mapM {A B} (f : A -> result B) (l : list A) : result (list B) :=
  match l with
  | [] => Ok []
  | a :: l' => let* b := f a in let* bs := mapM f l' in Ok (b :: bs)
  end.

(** [bool(v)]. *)
Definition truthy (v : value) : bool :=
  match v with
  | VNone => false
  | VBool b => b
  | VInt z => negb (z =? 0)%Z
  | VFloat f => negb (PrimFloat.eqb f PrimFloat.zero)
  | VStr s => negb (String.eqb s "")
  | VList items => match items with [] => false | _ => true end
  | VDict fields => match fields with [] => false | _ => true end
  end.

(** [a or b]. *)
Definition or_else (a b : value) : value := if truthy a then a else b.

Fixpoint assoc (key : string) (fields : list (string * value)) : option value :=
  match fields with
  | [] => None
  | (k, v) :: rest => if String.eqb k key then Some v else assoc key rest
  end.

(** [obj.get(key, default)]; only a [dict] has the method. *)
Definition get_default (obj : value) (key : string) (default : value) : result value :=
  match obj with
  | VDict fields => Ok (from_option id default (assoc key fields))
  | _ => Raise AttributeError
  end.

(** [obj.get(key)]. *)
Definition get (obj : value) (key : string) : result value :=
  get_default obj key VNone.

(** A byte [10xxxxxx] continues the character begun before it. *)
Definition is_continuation (c : ascii) : bool :=
  let n := nat_of_ascii c in (128 <=? n)%nat && (n <? 192)%nat.

Definition continued (s : string) : bool :=
  match s with
  | String c _ => is_continuation c
  | EmptyString => false
  end.

(** The characters of [s], each a string of its own: what iterating over
    a [str] yields. *)
Fixpoint characters (s : string) : list string :=
  match s with
  | EmptyString => []
  | String c rest =>
      match characters rest with
      | first :: others =>
          if continued rest then String c first :: others
          else String c EmptyString :: first :: others
      | [] => [String c EmptyString]
      end
  end.

Definition chars (s : string) : list value := map VStr (characters s).

(** The items a [for] loop visits. *)
Definition iter (v : value) : result (list value) :=
  match v with
  | VList items => Ok items
  | VStr s => Ok (chars s)
  | VDict fields => Ok (map (fun kv => VStr (fst kv)) fields)
  | _ => Raise TypeError
  end.

Definition is_str (v : value) : bool :=
  match v with VStr _ => true | _ => false end.

(** The integer behind [v] when [isinstance(v, int)] holds; [bool] is a
    subclass of [int], with [True == 1] and [False == 0]. *)
Definition int_value (v : value) : option Z :=
  match v with
  | VInt z => Some z
  | VBool b => Some (if b then 1 else 0)%Z
  | _ => None
  end.

Definition lower_char (c : ascii) : ascii :=
  let n := nat_of_ascii c in
  if (65 <=? n)%nat && (n <=? 90)%nat then ascii_of_nat (n + 32) else c.

(** [s.lower()] for ASCII [s]: the letters A to Z are mapped, every other
    byte is kept. *)
Fixpoint lower (s : string) : string :=
  match s with
  | EmptyString => EmptyString
  | String c rest => String (lower_char c) (lower rest)
  end.

(** [s.replace("-", "")]. *)
Fixpoint remove_hyphens (s : string) : string :=
  match s with
  | EmptyString => EmptyString
  | String c rest =>
      if Ascii.eqb c "-" then remove_hyphens rest
      else String c (remove_hyphens rest)
  end.

(** A string method called on [v]: any other type has no such attribute. *)
Definition str_method (f : string -> string) (v : value) : result string :=
  match v with
  | VStr s => Ok (f s)
  | _ => Raise AttributeError
  end.

End Py.

Import Py.

(** ** [normalize_uuid] *)

Definition normalize_uuid (value : string) : string :=
  lower (remove_hyphens value).

(** [normalize_uuid(v)] on an argument whose type is only known at run
    time: [v.replace] exists on [str] alone. *)
Definition normalize_uuid_dyn (v : value) : result string :=
  str_method normalize_uuid v.

(** The 8-4-4-4-12 rendering of five groups. *)
Definition hyphenated (a b c d e : string) : string :=
  a ++ "-" ++ b ++ "-" ++ c ++ "-" ++ d ++ "-" ++ e.

Definition unhyphenated (a b c d e : string) : string :=
  a ++ b ++ c ++ d ++ e.

(** ** Configuration *)

Record ServerTarget := { name : value; address : value }.

Record BotConfig := {
  token : value;
  servers : list ServerTarget;
  request_timeout_seconds : value;
  max_concurrency : Z
}.

(** One element of the [servers] comprehension: kept when it is a dict
    whose [name] and [address] are both truthy. *)
Definition server_of (entry : value) : option ServerTarget :=
  match entry with
  | VDict fields =>
      let n := from_option id VNone (assoc "name" fields) in
      let a := from_option id VNone (assoc "address" fields) in
      if truthy n && truthy a then Some {| name := n; address := a |} else None
  | _ => None
  end.

(** [load_config].  [file] is [None] when the path does not exist, and
    otherwise what [open] followed by [json.load] gives.  The value kept
    for [max_concurrency] always passes [isinstance(_, int)]; the record
    holds the integer it stands for ([True] is kept by the code and
    counts as 1 wherever it is used). *)
Definition load_config (file : option (result value)) : result BotConfig :=
  let* raw := from_option id (Raise FileNotFoundError) file in
  let* servers_raw := get_default raw "servers" (VList []) in
  let* entries := iter servers_raw in
  let servers := omap server_of entries in
  let* token := get raw "discord_token" in
  if negb (truthy token) then Raise ValueError else
  let* supplied := get_default raw "max_concurrency" (VInt 8) in
  let max_concurrency :=
    match int_value supplied with
    | Some z => if (z <? 1)%Z then 1%Z else z
    | None => 1%Z
    end in
  let* timeout := get_default raw "request_timeout_seconds" (VInt 10) in
  Ok {| token := token;
        servers := servers;
        request_timeout_seconds := timeout;
        max_concurrency := max_concurrency |}.

(** ** Roster extraction *)

(** Body of the first loop of [extract_players]. *)
Fixpoint names_of (entries : list value) : list value :=
  match entries with
  | [] => []
  | entry :: rest =>
      match entry with
      | VDict fields =>
          let name := from_option id VNone (assoc "name" fields) in
          if truthy name then name :: names_of rest else names_of rest
      | VStr _ => entry :: names_of rest
      | _ => names_of rest
      end
  end.

(** Body of the second loop of [extract_players]. *)
Fixpoint uuids_of (entries : list value) : list value :=
  match entries with
  | [] => []
  | entry :: rest =>
      match entry with
      | VDict fields =>
          let raw_uuid := or_else (from_option id VNone (assoc "uuid" fields)) (VStr "") in
          if truthy raw_uuid then raw_uuid :: uuids_of rest else uuids_of rest
      | VStr _ => entry :: uuids_of rest
      | _ => uuids_of rest
      end
  end.

Definition extract_players (payload : value) : result (list value * list value) :=
  let* players := get_default payload "players" (VDict []) in
  let* listed := get players "list" in
  let* entries := iter (or_else listed (VList [])) in
  let names := names_of entries in
  let* ids := get_default players "uuid" (VList []) in
  let* id_entries := iter (or_else ids (VList [])) in
  Ok (names, uuids_of id_entries).

(** ** Directory lookup *)

(** What [session.get] hands back: the status line and the outcome of
    [response.json()]. *)
Record response := { status : Z; json : result value }.

(** [response.raise_for_status()]. *)
Definition raise_for_status (r : response) : result unit :=
  if (400 <=? status r)%Z then Raise ClientError else Ok tt.

(** [fetch_uuid_for_name]; [answer] is the outcome of the GET. *)
Definition fetch_uuid_for_name (answer : result response) : result value :=
  let* r := answer in
  if (status r =? 204)%Z then Ok VNone else
  let* _ := raise_for_status r in
  let* data := json r in
  get data "id".

(** [fetch_json], reached through [fetch_server_status]. *)
Definition fetch_json (answer : result response) : result value :=
  let* r := answer in
  let* _ := raise_for_status r in
  json r.

(** ** Identifier pattern *)

(** The fragment of [re] syntax that [UUID_REGEX] is written in. *)
Inductive regex :=
| Bol
| Eol
| Class (ranges : list (ascii * ascii))
| Lit (c : ascii)
| Repeat (n : nat) (r : regex)
| Seq (r1 r2 : regex)
| Alt (r1 r2 : regex).

Definition in_range (c : ascii) (range : ascii * ascii) : bool :=
  (nat_of_ascii (fst range) <=? nat_of_ascii c)%nat
  && (nat_of_ascii c <=? nat_of_ascii (snd range))%nat.

Definition in_class (ranges : list (ascii * ascii)) (c : ascii) : bool :=
  existsb (in_range c) ranges.

Definition newline : ascii := "010"%char.

(** [$] without [re.MULTILINE]: the end of the string, or just before a
    newline that ends the string. *)
Definition at_eol (s : string) : bool :=
  match s with
  | EmptyString => true
  | String c EmptyString => Ascii.eqb c newline
  | _ => false
  end.

(** Backtracking matcher.  [start] tells whether the position is the
    beginning of the subject, [s] is the rest of the subject and [k] the
    continuation of the match. *)
Fixpoint matches_from (r : regex) (start : bool) (s : string)
    (k : bool -> string -> bool) : bool :=
  match r with
  | Bol => start && k start s
  | Eol => at_eol s && k start s
  | Class ranges =>
      match s with
      | String c rest => in_class ranges c && k false rest
      | EmptyString => false
      end
  | Lit c' =>
      match s with
      | String c rest => Ascii.eqb c c' && k false rest
      | EmptyString => false
      end
  | Repeat n r' =>
      (fix times (n : nat) (start : bool) (s : string) : bool :=
         match n with
         | O => k start s
         | S n' => matches_from r' start s (times n')
         end) n start s
  | Seq r1 r2 => matches_from r1 start s (fun b s' => matches_from r2 b s' k)
  | Alt r1 r2 => matches_from r1 start s k || matches_from r2 start s k
  end.

(** [pattern.match(s)]: a match that begins at the first character. *)
Definition re_match (r : regex) (s : string) : bool :=
  matches_from r true s (fun _ _ => true).

Definition hex_ranges : list (ascii * ascii) :=
  [("0", "9"); ("a", "f"); ("A", "F")]%char.

(** [[0-9a-fA-F]]. *)
Definition hex : regex := Class hex_ranges.

Definition UUID_REGEX : regex :=
  Alt (Seq Bol (Seq (Repeat 32 hex) Eol))
      (Seq Bol
        (Seq (Repeat 8 hex) (Seq (Lit "-")
        (Seq (Repeat 4 hex) (Seq (Lit "-")
        (Seq (Repeat 4 hex) (Seq (Lit "-")
        (Seq (Repeat 4 hex) (Seq (Lit "-")
        (Seq (Repeat 12 hex) Eol)))))))))).

(** The identifier format in the words of the specification: 32
    hexadecimal characters, bare or grouped 8-4-4-4-12 by hyphens. *)
Definition is_hex_digit (c : ascii) : bool :=
  let n := nat_of_ascii c in
  ((48 <=? n) && (n <=? 57) || (97 <=? n) && (n <=? 102)
   || (65 <=? n) && (n <=? 70))%nat.

Fixpoint all_hex (s : string) : bool :=
  match s with
  | EmptyString => true
  | String c rest => is_hex_digit c && all_hex rest
  end.

Definition hex_group (n : nat) (s : string) : Prop :=
  String.length s = n /\ all_hex s = true.

Definition identifier_shaped (s : string) : Prop :=
  hex_group 32 s \/
  exists a b c d e,
    s = hyphenated a b c d e /\
    hex_group 8 a /\ hex_group 4 b /\ hex_group 4 c /\ hex_group 4 d /\
    hex_group 12 e.

(** ** Matching one server *)

(** [check_server] from the line after the [try] block on: [Ok true]
    stands for [matches.append(target)], [Ok false] for a plain return. *)
Definition check_payload (player_name : string) (player_uuid : value)
    (payload : value) : result bool :=
  let* online := get payload "online" in
  if negb (truthy online) then Ok false else
  let* (names, uuids) := extract_players payload in
  let* lowered := mapM (str_method lower) names in
  if existsb (String.eqb (lower player_name)) lowered then Ok true else
  if truthy player_uuid then
    let* normalized := normalize_uuid_dyn player_uuid in
    let* known := mapM normalize_uuid_dyn uuids in
    Ok (existsb (String.eqb normalized) known)
  else Ok false.

(** The [except (aiohttp.ClientError, asyncio.TimeoutError)] clause. *)
Definition caught (e : exn) : bool :=
  match e with
  | ClientError | TimeoutError => true
  | _ => false
  end.

(** [check_server] once the semaphore is held; [fetched] is the outcome of
    [fetch_server_status] for the target. *)
Definition check_server (player_name : string) (player_uuid : value)
    (fetched : result value) : result bool :=
  match fetched with
  | Ok payload => check_payload player_name player_uuid payload
  | Raise e => if caught e then Ok false else Raise e
  end.

(** ** Matching one server, names of any alphabet

    [normalize_uuid] and [check_server] once more, with [str.lower] left
    as the function [str_lower]; [lower] is the instance for ASCII text. *)

Section CaseMapping.

Variable str_lower : string -> string.

Definition normalize_uuid_via (value : string) : string :=
  str_lower (remove_hyphens value).

Definition check_payload_via (player_name : string) (player_uuid : value)
    (payload : value) : result bool :=
  let* online := get payload "online" in
  if negb (truthy online) then Ok false else
  let* (names, uuids) := extract_players payload in
  let* lowered := mapM (str_method str_lower) names in
  if existsb (String.eqb (str_lower player_name)) lowered then Ok true else
  if truthy player_uuid then
    let* normalized := str_method normalize_uuid_via player_uuid in
    let* known := mapM (str_method normalize_uuid_via) uuids in
    Ok (existsb (String.eqb normalized) known)
  else Ok false.

Definition check_server_via (player_name : string) (player_uuid : value)
    (fetched : result value) : result bool :=
  match fetched with
  | Ok payload => check_payload_via player_name player_uuid payload
  | Raise e => if caught e then Ok false else Raise e
  end.

End CaseMapping.

(** ** Fan-out over the configured servers *)

(** Where a [check_server] task stands: before [async with semaphore],
    suspended in [await fetch_server_status], or returned. *)
Inductive task := Pending | InFlight | Finished.

(** HTTP requests sent through the shared session. *)
Inductive event :=
| DirectoryGet (player : string)
| StatusGet (address : value).

Record state := {
  tasks : list task;
  semaphore : Z;
  matches : list ServerTarget;
  raised : option exn;
  requests : list event
}.

(** The event loop resumes one task at a time.  [Acquire i]: task [i]
    takes a slot of the semaphore and sends its request.  [Complete i]:
    the request of task [i] is answered; the task runs to its end, which
    contains no further suspension point, and gives the slot back.

    A schedule is any sequence of such resumptions that the semaphore
    allows.  The event loop follows some of them only: it starts the
    tasks in the order of the targets and hands a freed slot to the task
    that has waited longest.  What holds of every schedule holds of the
    ones the loop follows; a schedule written down in a statement is one
    of the latter only where this is said. *)
Inductive action := Acquire (i : nat) | Complete (i : nat).

Definition is_finished (t : task) : bool :=
  match t with Finished => true | _ => false end.

Definition is_in_flight (t : task) : bool :=
  match t with InFlight => true | _ => false end.

Definition in_flight (st : state) : nat :=
  length (filter (fun t => is_in_flight t = true) (tasks st)).

Section Coordinator.

Variable probes : list (ServerTarget * result response).
Variable player_name : string.
Variable player_uuid : value.

(** [asyncio.Semaphore(value)] refuses a negative initial value. *)
Definition init (max_concurrency : Z) : result state :=
  if (max_concurrency <? 0)%Z then Raise ValueError
  else Ok {| tasks := replicate (length probes) Pending;
             semaphore := max_concurrency;
             matches := [];
             raised := None;
             requests := [] |}.

Definition step (a : action) (st : state) : option state :=
  match a with
  | Acquire i =>
      match tasks st !! i, probes !! i with
      | Some Pending, Some (target, _) =>
          if (0 <? semaphore st)%Z then
            Some {| tasks := <[i := InFlight]> (tasks st);
                    semaphore := semaphore st - 1;
                    matches := matches st;
                    raised := raised st;
                    requests := requests st ++ [StatusGet (address target)] |}
          else None
      | _, _ => None
      end
  | Complete i =>
      match tasks st !! i, probes !! i with
      | Some InFlight, Some (target, answer) =>
          let verdict := check_server player_name player_uuid (fetch_json answer) in
          Some {| tasks := <[i := Finished]> (tasks st);
                  semaphore := semaphore st + 1;
                  matches :=
                    match verdict with
                    | Ok true => matches st ++ [target]
                    | _ => matches st
                    end;
                  raised :=
                    match raised st, verdict with
                    | None, Raise e => Some e
                    | r, _ => r
                    end;
                  requests := requests st |}
      | _, _ => None
      end
  end.

Fixpoint run (schedule : list action) (st : state) : option state :=
  match schedule with
  | [] => Some st
  | a :: rest =>
      match step a st with
      | Some st' => run rest st'
      | None => None
      end
  end.

(** What [await asyncio.gather(...)] followed by [return matches] gives in
    state [st]: the first exception of a task as soon as there is one,
    the list once every task has returned, nothing before. *)
Definition outcome (st : state) : option (result (list ServerTarget)) :=
  match raised st with
  | Some e => Some (Raise e)
  | None =>
      if forallb is_finished (tasks st) then Some (Ok (matches st)) else None
  end.

(** [find_player_servers] under the interleaving [schedule]; [None] when
    the schedule is not one the event loop can follow or stops before the
    coroutine is resumed. *)
Definition find_player_servers (max_concurrency : Z) (schedule : list action)
    : option (list event * result (list ServerTarget)) :=
  match init max_concurrency with
  | Raise e => Some ([], Raise e)
  | Ok st0 =>
      match run schedule st0 with
      | Some st =>
          match outcome st with
          | Some r => Some (requests st, r)
          | None => None
          end
      | None => None
      end
  end.

End Coordinator.

(** The same coordinator over [check_server_via]. *)
Section CoordinatorVia.

Variable str_lower : string -> string.
Variable probes : list (ServerTarget * result response).
Variable player_name : string.
Variable player_uuid : value.

Definition step_via (a : action) (st : state) : option state :=
  match a with
  | Acquire i =>
      match tasks st !! i, probes !! i with
      | Some Pending, Some (target, _) =>
          if (0 <? semaphore st)%Z then
            Some {| tasks := <[i := InFlight]> (tasks st);
                    semaphore := semaphore st - 1;
                    matches := matches st;
                    raised := raised st;
                    requests := requests st ++ [StatusGet (address target)] |}
          else None
      | _, _ => None
      end
  | Complete i =>
      match tasks st !! i, probes !! i with
      | Some InFlight, Some (target, answer) =>
          let verdict :=
            check_server_via str_lower player_name player_uuid (fetch_json answer) in
          Some {| tasks := <[i := Finished]> (tasks st);
                  semaphore := semaphore st + 1;
                  matches :=
                    match verdict with
                    | Ok true => matches st ++ [target]
                    | _ => matches st
                    end;
                  raised :=
                    match raised st, verdict with
                    | None, Raise e => Some e
                    | r, _ => r
                    end;
                  requests := requests st |}
      | _, _ => None
      end
  end.

Fixpoint run_via (schedule : list action) (st : state) : option state :=
  match schedule with
  | [] => Some st
  | a :: rest =>
      match step_via a st with
      | Some st' => run_via rest st'
      | None => None
      end
  end.

Definition find_player_servers_via (max_concurrency : Z) (schedule : list action)
    : option (list event * result (list ServerTarget)) :=
  match init probes max_concurrency with
  | Raise e => Some ([], Raise e)
  | Ok st0 =>
      match run_via schedule st0 with
      | Some st =>
          match outcome st with
          | Some r => Some (requests st, r)
          | None => None
          end
      | None => None
      end
  end.

End CoordinatorVia.

(** ** The [/procurar] command *)

Inductive reply :=
| SessionNotReady
| NoServersConfigured
| PlayerNotFound (jogador : string)
| NoMatch
| Found (matches : list ServerTarget).

Section Command.

Variable session_ready : bool.
Variable config : BotConfig.
(** The network: the directory's answer for a name and the status
    service's answer to the request of the [i]-th configured server. *)
Variable directory : string -> result response.
Variable statuses : nat -> result response.

Definition probes_of (targets : list ServerTarget) : list (ServerTarget * result response) :=
  imap (fun i target => (target, statuses i)) targets.

Definition search (sent : list event) (player_name : string) (player_uuid : value)
    (schedule : list action) : option (list event * result reply) :=
  match find_player_servers (probes_of (servers config)) player_name player_uuid
          (max_concurrency config) schedule with
  | Some (reqs, Ok []) => Some ((sent ++ reqs)%list, Ok NoMatch)
  | Some (reqs, Ok found) => Some ((sent ++ reqs)%list, Ok (Found found))
  | Some (reqs, Raise e) => Some ((sent ++ reqs)%list, Raise e)
  | None => None
  end.

(** The command handler: the requests it sends and the message it
    answers with (or the exception it ends in). *)
Definition procurar (jogador : string) (schedule : list action)
    : option (list event * result reply) :=
  if negb session_ready then Some ([], Ok SessionNotReady) else
  match servers config with
  | [] => Some ([], Ok NoServersConfigured)
  | _ =>
      if re_match UUID_REGEX jogador then
        search [] jogador (VStr jogador) schedule
      else
        match fetch_uuid_for_name (directory jogador) with
        | Raise e => Some ([DirectoryGet jogador], Raise e)
        | Ok VNone => Some ([DirectoryGet jogador], Ok (PlayerNotFound jogador))
        | Ok player_uuid => search [DirectoryGet jogador] jogador player_uuid schedule
        end
  end.

End Command.

(** The player [procurar] looks for: what its lines 195 to 207 leave in
    [player_name] and [player_uuid] before the servers are asked, with
    the directory request sent on the way.  [Unknown] stands for the
    early return on a [None] answer of the directory. *)
Inductive identity :=
| Identity (player_name : string) (player_uuid : value)
| Unknown.

Definition resolve (directory : string -> result response) (jogador : string)
    : list event * result identity :=
  if re_match UUID_REGEX jogador then ([], Ok (Identity jogador (VStr jogador)))
  else
    ([DirectoryGet jogador],
     let* player_uuid := fetch_uuid_for_name (directory jogador) in
     Ok (match player_uuid with
         | VNone => Unknown
         | _ => Identity jogador player_uuid
         end)).

(** ** Vocabulary of the statements *)

Definition line_feed : string := String newline EmptyString.

(** Reading [n] characters of a class off the front of [s]. *)
Fixpoint take_class (ranges : list (ascii * ascii)) (n : nat) (s : string)
    : option string :=
  match n with
  | O => Some s
  | S n' =>
      match s with
      | String c rest =>
          if in_class ranges c then take_class ranges n' rest else None
      | EmptyString => None
      end
  end.

(** What an entry of a roster array contributes: itself when it is a bare
    string, the truthy value under [key] when it is an object. *)
Definition carries (key : string) (entry v : value) : Prop :=
  (entry = v /\ is_str v = true) \/
  (exists fields, entry = VDict fields /\ assoc key fields = Some v /\ truthy v = true).

(** A roster field the extraction copes with: absent, falsy, or an array. *)
Definition roster_field (field : option value) (entries : list value) : Prop :=
  match field with
  | None => entries = []
  | Some v => (truthy v = false /\ entries = []) \/ v = VList entries
  end.

(** An object entry whose value under [key], when truthy, is a string. *)
Definition string_valued (key : string) (entry : value) : Prop :=
  forall fields v,
    entry = VDict fields -> assoc key fields = Some v -> truthy v = true ->
    is_str v = true.

(** The conditions of a match, in the words of the specification. *)
Definition reports_online (payload : value) : Prop :=
  exists flag, get payload "online" = Ok flag /\ truthy flag = true.

(** (a): the name, lowercased, equals the lowercase of an entry of the
    extracted name list. *)
Definition name_on_roster (str_lower : string -> string) (player_name : string)
    (payload : value) : Prop :=
  exists names uuids entry,
    extract_players payload = Ok (names, uuids) /\
    In (VStr entry) names /\ str_lower player_name = str_lower entry.

(** (b): the identifier is not empty and equals an entry of the extracted
    identifier list once the hyphens are stripped from both and both are
    lowercased. *)
Definition identifier_on_roster (str_lower : string -> string) (player_uuid : value)
    (payload : value) : Prop :=
  exists names uuids id entry,
    extract_players payload = Ok (names, uuids) /\
    player_uuid = VStr id /\ id <> "" /\
    In (VStr entry) uuids /\
    str_lower (remove_hyphens id) = str_lower (remove_hyphens entry).

(** Whether the probe of a target puts it on the list. *)
Definition included_via (str_lower : string -> string) (player_name : string)
    (player_uuid : value) (probe : ServerTarget * result response) : bool :=
  match check_server_via str_lower player_name player_uuid (fetch_json (snd probe)) with
  | Ok true => true
  | _ => false
  end.

(** Whether the probe of a target puts it on the list. *)
Definition included (player_name : string) (player_uuid : value)
    (probe : ServerTarget * result response) : bool :=
  match check_server player_name player_uuid (fetch_json (snd probe)) with
  | Ok true => true
  | _ => false
  end.

(** The targets appended by the tasks [order], one after the other. *)
Definition appended (probes : list (ServerTarget * result response))
    (player_name : string) (player_uuid : value) (order : list nat)
    : list ServerTarget :=
  fst <$> filter (fun probe => included player_name player_uuid probe = true)
            (omap (fun i => probes !! i) order).

Definition appended_via (str_lower : string -> string)
    (probes : list (ServerTarget * result response))
    (player_name : string) (player_uuid : value) (order : list nat)
    : list ServerTarget :=
  fst <$> filter (fun probe => included_via str_lower player_name player_uuid probe = true)
            (omap (fun i => probes !! i) order).

(** The tasks a schedule completes, in the order it completes them. *)
Definition completed (schedule : list action) : list nat :=
  omap (fun a => match a with Complete i => Some i | Acquire _ => None end) schedule.

Definition is_status_get (e : event) : Prop :=
  match e with
  | StatusGet _ => True
  | DirectoryGet _ => False
  end.

Global Instance task_eq_dec : EqDecision task.
Proof. solve_decision. Defined.

(** Resumptions a task still needs before it has returned. *)
Definition remaining (t : task) : nat :=
  match t with
  | Pending => 2
  | InFlight => 1
  | Finished => 0
  end.

Definition work (st : state) : nat := sum_list (remaining <$> tasks st).

(** Requests a task has sent. *)
Definition started (t : task) : nat :=
  match t with
  | Pending => 0
  | InFlight | Finished => 1
  end.

Definition requests_sent (st : state) : Prop :=
  length (requests st) = sum_list (started <$> tasks st).

(** The slots handed out and the slots left add up to the capacity. *)
Definition slots_ok (probes : list (ServerTarget * result response))
    (capacity : Z) (st : state) : Prop :=
  (0 <= semaphore st)%Z /\ (semaphore st + Z.of_nat (in_flight st) = capacity)%Z /\
  length (tasks st) = length probes.

(** Renumbering of tasks when the task at position [k] is left out or put
    back. *)
Definition shift (k j : nat) : nat := if (j <? k)%nat then j else S j.

Definition unshift (k i : nat) : nat := if (i <? k)%nat then i else pred i.

Definition action_index (a : action) : nat :=
  match a with Acquire i | Complete i => i end.

Definition reindex (f : nat -> nat) (a : action) : action :=
  match a with
  | Acquire i => Acquire (f i)
  | Complete i => Complete (f i)
  end.

Definition without (k : nat) (a : action) : option action :=
  if (action_index a =? k)%nat then None else Some (reindex (unshift k) a).

(** A state of the run over all probes and the state of the run that
    leaves probe [k], standing at [t], out. *)
Record related (k : nat) (t : task) (whole part : state) : Prop := {
  related_tasks : tasks part = delete k (tasks whole);
  related_task : tasks whole !! k = Some t;
  related_semaphore :
    semaphore part = (semaphore whole + (if is_in_flight t then 1 else 0))%Z;
  related_matches : matches part = matches whole;
  related_raised : raised part = raised whole
}.

(** ** Sample inputs *)

Definition sample_config : value :=
  VDict [("discord_token", VStr "t");
         ("max_concurrency", VFloat 2.5);
         ("request_timeout_seconds", VInt 0)].

Definition sample_loaded : BotConfig :=
  {| token := VStr "t"; servers := [];
     request_timeout_seconds := VInt 0; max_concurrency := 1 |}.

Definition sample_roster : value :=
  VDict [("online", VBool true);
         ("players",
          VDict [("list", VList [VStr "Steve"; VDict [("name", VStr "Alex")]; VInt 3]);
                 ("uuid", VNone)])].

Definition server_a : ServerTarget := {| name := VStr "A"; address := VStr "a.example" |}.

Definition server_b : ServerTarget := {| name := VStr "B"; address := VStr "b.example" |}.

Definition answered (payload : value) : result response :=
  Ok {| status := 200; json := Ok payload |}.

Definition unreachable : result response := Raise ClientError.

Definition payload_a : value :=
  VDict [("players", VDict [("list", VList [VStr "Steve"])]); ("online", VBool true)].

Definition payload_b : value :=
  VDict [("online", VBool true); ("players", VDict [("list", VList [])])].

Definition sample_probes : list (ServerTarget * result response) :=
  [(server_a, answered payload_a); (server_b, answered payload_b)].

Definition sample_schedule : list action :=
  [Acquire 1; Complete 1; Acquire 0; Complete 0].

Definition sample_state (capacity : Z) : state :=
  {| tasks := [Pending; Pending]; semaphore := capacity; matches := [];
     raised := None; requests := [] |}.

Definition sample_bot : BotConfig :=
  {| token := VStr "t"; servers := [server_a; server_b];
     request_timeout_seconds := VInt 10; max_concurrency := 1 |}.

Definition sample_statuses (i : nat) : result response :=
  match i with
  | O => answered payload_a
  | S _ => answered payload_b
  end.

(** A directory that knows nobody and says so with an empty object. *)
Definition empty_directory (player : string) : result response :=
  answered (VDict []).

Definition newline_terminated : string :=
  "aaaaaaaaaaaaaaaaaaaaaaaaaaaaaaaa" ++ line_feed.

(** What a [for] loop accepts. *)
Definition iterable (v : value) : bool :=
  match v with
  | VList _ | VStr _ | VDict _ => true
  | _ => false
  end.

Definition field_or (default : value) (key : string) (fields : list (string * value)) : value :=
  from_option id default (assoc key fields).

Definition well_formed_target (t : ServerTarget) : Prop :=
  truthy (name t) = true /\ truthy (address t) = true.

Definition two_entry_config : value :=
  VDict [("discord_token", VStr "t");
         ("servers",
          VList [VDict [("name", VStr "A"); ("address", VStr "a.example")];
                 VDict [("name", VStr "B")];
                 VStr "c.example"])].

Definition is_lower_hex_digit (c : ascii) : bool :=
  let n := nat_of_ascii c in
  ((48 <=? n) && (n <=? 57) || (97 <=? n) && (n <=? 102))%nat.

Fixpoint all_lower_hex (s : string) : bool :=
  match s with
  | EmptyString => true
  | String c rest => is_lower_hex_digit c && all_lower_hex rest
  end.

Definition sample_id : string := "AAAAAAAA-aaaa-aaaa-aaaa-aaaaaaaa0123".

Definition payload_with_id : value :=
  VDict [("online", VBool true);
         ("players", VDict [("uuid", VList [VStr "aaaaaaaaaaaaaaaaaaaaaaaaaaaa0123"])])].

(** The tasks a schedule lets take a slot, in that order. *)
Definition acquired (schedule : list action) : list nat :=
  omap (fun a => match a with Acquire i => Some i | Complete _ => None end) schedule.

(** The schedule of a lookup that has a slot for each of its [n] tasks:
    started one after the other, none of them has to wait, so that all
    take their slot and send their request in the order of the targets;
    they finish in the order [order] in which the answers come in. *)
Definition all_at_once (n : nat) (order : list nat) : list action :=
  ((Acquire <$> seq 0 n) ++ (Complete <$> order))%list.

Definition status_request (probe : ServerTarget * result response) : event :=
  StatusGet (address (fst probe)).
Definition malformed_payload : value :=
  VDict [("online", VBool true); ("players", VNone)].

Definition mixed_probes : list (ServerTarget * result response) :=
  [(server_a, answered payload_a); (server_b, answered malformed_payload)].

Definition dead_probes : list (ServerTarget * result response) :=
  [(server_a, unreachable); (server_b, Ok {| status := 503; json := Raise ClientError |})].

Definition both_match : list (ServerTarget * result response) :=
  [(server_a, answered payload_a); (server_b, answered payload_a)].

(** A directory that is down. *)
Definition failing_directory (player : string) : result response :=
  Ok {| status := 500; json := Raise ClientError |}.

(** Status answers that list the sample identifier on every server. *)
Definition id_statuses (i : nat) : result response := answered payload_with_id.

(** [isinstance(v, dict)]. *)
Definition is_object (v : value) : bool :=
  match v with VDict _ => true | _ => false end.

Definition string_roster : value :=
  VDict [("players",
          VDict [("list", VList [VStr "Steve"; VStr ""; VStr "Steve"]);
                 ("uuid", VList [VStr "0F-0f"])])].


(** A roster that names Steve and holds an entry whose name is a number. *)
Definition mixed_roster : value :=
  VDict [("online", VBool true);
         ("players",
          VDict [("list", VList [VStr "Steve"; VDict [("name", VInt 7)]])])].

Definition offline_with_id : value :=
  VDict [("online", VBool false);
         ("players", VDict [("uuid", VList [VStr "aaaaaaaaaaaaaaaaaaaaaaaaaaaa0123"])])].

Definition id_probes : list (ServerTarget * result response) :=
  [(server_a, answered payload_with_id); (server_b, answered offline_with_id)].

(** * Properties *)

Section Normalize.

Lemma lower_char_idem c : lower_char (lower_char c) = lower_char c.
Proof. destruct c as [[] [] [] [] [] [] [] []]; reflexivity. Qed.

Lemma lower_char_hyphen c :
  Ascii.eqb (lower_char c) "-" = Ascii.eqb c "-".
Proof. destruct c as [[] [] [] [] [] [] [] []]; reflexivity. Qed.

Lemma lower_idem s : lower (lower s) = lower s.
Proof. induction s as [|c s IH]; simpl; [|rewrite lower_char_idem, IH]; reflexivity. Qed.

Lemma remove_hyphens_lower s :
  remove_hyphens (lower s) = lower (remove_hyphens s).
Proof.
  induction s as [|c s IH]; simpl; [reflexivity|].
  rewrite lower_char_hyphen. destruct (Ascii.eqb c "-"); simpl; congruence.
Qed.

Lemma remove_hyphens_idem s : remove_hyphens (remove_hyphens s) = remove_hyphens s.
Proof.
  induction s as [|c s IH]; simpl; [reflexivity|].
  destruct (Ascii.eqb c "-") eqn:E; simpl; [assumption|].
  rewrite E, IH. reflexivity.
Qed.

Lemma remove_hyphens_app s t :
  remove_hyphens (s ++ t) = remove_hyphens s ++ remove_hyphens t.
Proof.
  induction s as [|c s IH]; simpl; [reflexivity|].
  destruct (Ascii.eqb c "-"); simpl; congruence.
Qed.

Lemma normalize_uuid_strip s :
  normalize_uuid (remove_hyphens s) = normalize_uuid s.
Proof. unfold normalize_uuid. rewrite remove_hyphens_idem. reflexivity. Qed.

Lemma remove_hyphens_hyphenated a b c d e :
  remove_hyphens (hyphenated a b c d e) = remove_hyphens (unhyphenated a b c d e).
Proof.
  unfold hyphenated, unhyphenated.
  rewrite !remove_hyphens_app. simpl. reflexivity.
Qed.

(** C9: [normalize_uuid] is idempotent on every string, and the hyphenated
    and the unhyphenated writing of the same identifier (any five groups,
    in particular hexadecimal groups of 8, 4, 4, 4 and 12 characters)
    normalize to the same value. *)
Theorem normalize_uuid_idempotent_canonical :
  (forall x, normalize_uuid (normalize_uuid x) = normalize_uuid x) /\
  (forall a b c d e,
      normalize_uuid (hyphenated a b c d e) = normalize_uuid (unhyphenated a b c d e)).
Proof.
  split.
  - intros x. unfold normalize_uuid.
    rewrite remove_hyphens_lower, remove_hyphens_idem. apply lower_idem.
  - intros a b c d e. unfold normalize_uuid.
    rewrite remove_hyphens_hyphenated. reflexivity.
Qed.

End Normalize.

Section Config.

Lemma load_config_dict file cfg :
  load_config file = Ok cfg ->
  exists fields, file = Some (Ok (VDict fields)).
Proof.
  destruct file as [[raw|e]|]; simpl; try discriminate.
  destruct raw; simpl; try discriminate. eauto.
Qed.

Lemma load_config_fields fields cfg :
  load_config (Some (Ok (VDict fields))) = Ok cfg ->
  max_concurrency cfg =
    match int_value (from_option id (VInt 8) (assoc "max_concurrency" fields)) with
    | Some z => if (z <? 1)%Z then 1%Z else z
    | None => 1%Z
    end /\
  request_timeout_seconds cfg =
    from_option id (VInt 10) (assoc "request_timeout_seconds" fields).
Proof.
  unfold load_config. simpl.
  destruct (iter _) as [entries|e]; simpl; [|discriminate].
  destruct (negb _); [discriminate|].
  intros [= <-]. simpl. split; reflexivity.
Qed.

(** C7: when [load_config] succeeds, [max_concurrency] is at least 1; it
    is 8 when the field is missing, 1 when the supplied value is not an
    integer or is below 1, and the supplied integer otherwise. *)
Theorem load_config_max_concurrency file cfg :
  load_config file = Ok cfg ->
  (1 <= max_concurrency cfg)%Z /\
  exists fields,
    file = Some (Ok (VDict fields)) /\
    (assoc "max_concurrency" fields = None -> max_concurrency cfg = 8%Z) /\
    (forall v, assoc "max_concurrency" fields = Some v ->
       int_value v = None -> max_concurrency cfg = 1%Z) /\
    (forall v z, assoc "max_concurrency" fields = Some v ->
       int_value v = Some z -> (z < 1)%Z -> max_concurrency cfg = 1%Z) /\
    (forall v z, assoc "max_concurrency" fields = Some v ->
       int_value v = Some z -> (1 <= z)%Z -> max_concurrency cfg = z).
Proof.
  intros H. destruct (load_config_dict _ _ H) as [fields ->].
  apply load_config_fields in H as [Hmc _]. rewrite Hmc. split.
  - destruct (int_value _) as [z|]; [|lia].
    destruct (Z.ltb_spec z 1); lia.
  - exists fields. split; [reflexivity|]. repeat split.
    + intros ->. reflexivity.
    + intros v -> Hv. simpl. rewrite Hv. reflexivity.
    + intros v z -> Hv Hz. simpl. rewrite Hv.
      destruct (Z.ltb_spec z 1); lia.
    + intros v z -> Hv Hz. simpl. rewrite Hv.
      destruct (Z.ltb_spec z 1); lia.
Qed.

Lemma load_config_max_concurrency_witness :
  load_config (Some (Ok sample_config)) = Ok sample_loaded /\
  (1 <= max_concurrency sample_loaded)%Z.
Proof.
  split; [reflexivity|].
  apply (load_config_max_concurrency (Some (Ok sample_config)) sample_loaded).
  reflexivity.
Defined.

(** C8 as stated fails: a supplied 0 is returned as it is. *)
Lemma load_config_timeout_below_one :
  ~ (forall file cfg,
       load_config file = Ok cfg ->
       exists z, request_timeout_seconds cfg = VInt z /\ (1 <= z)%Z).
Proof.
  intros H.
  destruct (H (Some (Ok sample_config)) sample_loaded eq_refl) as (z & Hz & Hle).
  injection Hz as <-. lia.
Qed.

(** C8, amended: when [load_config] succeeds, [request_timeout_seconds] is
    10 when the field is absent and the supplied integer, whatever its
    sign, when an integer is supplied. *)
Theorem load_config_request_timeout file cfg :
  load_config file = Ok cfg ->
  exists fields,
    file = Some (Ok (VDict fields)) /\
    (assoc "request_timeout_seconds" fields = None ->
       request_timeout_seconds cfg = VInt 10) /\
    (forall z, assoc "request_timeout_seconds" fields = Some (VInt z) ->
       request_timeout_seconds cfg = VInt z).
Proof.
  intros H. destruct (load_config_dict _ _ H) as [fields ->].
  apply load_config_fields in H as [_ Hrt]. rewrite Hrt.
  exists fields. split; [reflexivity|]. split.
  - intros ->. reflexivity.
  - intros z ->. reflexivity.
Qed.

Lemma load_config_request_timeout_witness :
  exists fields,
    Some (Ok sample_config) = Some (Ok (VDict fields)) /\
    (assoc "request_timeout_seconds" fields = None ->
       request_timeout_seconds sample_loaded = VInt 10) /\
    (forall z, assoc "request_timeout_seconds" fields = Some (VInt z) ->
       request_timeout_seconds sample_loaded = VInt z).
Proof.
  apply (load_config_request_timeout (Some (Ok sample_config)) sample_loaded).
  reflexivity.
Defined.

End Config.

Section Roster.

Lemma names_of_spec entries v :
  In v (names_of entries) <-> exists entry, In entry entries /\ carries "name" entry v.
Proof.
  induction entries as [|entry rest IH]; simpl.
  - split; [tauto|]. intros (? & [] & _).
  - assert (Hrest : In v (names_of rest) ->
              exists e, (entry = e \/ In e rest) /\ carries "name" e v).
    { intros H. apply IH in H as (e & He & Hc). eauto. }
    destruct entry as [| b | z | f | s | items | fields].
    1-4, 6: split; [exact Hrest|];
      intros (e & [<- | He] & Hc); [|apply IH; eauto];
      destruct Hc as [[<- Hs] | (fs & Hfs & _)]; discriminate.
    + simpl. split.
      * intros [<- | H]; [|auto].
        exists (VStr s). split; [auto|]. left. auto.
      * intros (e & [<- | He] & Hc); [|right; apply IH; eauto].
        destruct Hc as [[<- _] | (fs & Hfs & _)]; [auto | discriminate].
    + destruct (assoc "name" fields) as [n|] eqn:Hn; simpl.
      * destruct (truthy n) eqn:Ht; simpl.
        -- split.
           ++ intros [<- | H]; [|auto].
              exists (VDict fields). split; [auto|]. right. eauto.
           ++ intros (e & [<- | He] & Hc); [|right; apply IH; eauto].
              destruct Hc as [[<- Hs] | (fs & [= <-] & Hv & _)]; [discriminate|].
              left. congruence.
        -- split; [exact Hrest|].
           intros (e & [<- | He] & Hc); [|apply IH; eauto].
           destruct Hc as [[<- Hs] | (fs & [= <-] & Hv & Htv)]; [discriminate|].
           congruence.
      * split; [exact Hrest|].
        intros (e & [<- | He] & Hc); [|apply IH; eauto].
        destruct Hc as [[<- Hs] | (fs & [= <-] & Hv & Htv)]; [discriminate|].
        congruence.
Qed.

Lemma or_else_empty_str v :
  truthy (or_else v (VStr "")) = truthy v /\
  (truthy v = true -> or_else v (VStr "") = v).
Proof.
  unfold or_else. destruct (truthy v) eqn:E.
  - split; [assumption | reflexivity].
  - split; [reflexivity | discriminate].
Qed.

Lemma uuids_of_spec entries v :
  In v (uuids_of entries) <-> exists entry, In entry entries /\ carries "uuid" entry v.
Proof.
  induction entries as [|entry rest IH]; simpl.
  - split; [tauto|]. intros (? & [] & _).
  - assert (Hrest : In v (uuids_of rest) ->
              exists e, (entry = e \/ In e rest) /\ carries "uuid" e v).
    { intros H. apply IH in H as (e & He & Hc). eauto. }
    destruct entry as [| b | z | f | s | items | fields].
    1-4, 6: split; [exact Hrest|];
      intros (e & [<- | He] & Hc); [|apply IH; eauto];
      destruct Hc as [[<- Hs] | (fs & Hfs & _)]; discriminate.
    + simpl. split.
      * intros [<- | H]; [|auto].
        exists (VStr s). split; [auto|]. left. auto.
      * intros (e & [<- | He] & Hc); [|right; apply IH; eauto].
        destruct Hc as [[<- _] | (fs & Hfs & _)]; [auto | discriminate].
    + destruct (or_else_empty_str (from_option id VNone (assoc "uuid" fields)))
        as [Ht Hv]. rewrite Ht.
      destruct (assoc "uuid" fields) as [n|] eqn:Hn; simpl in *.
      * destruct (truthy n) eqn:Htn; simpl.
        -- rewrite (Hv eq_refl). split.
           ++ intros [<- | H]; [|auto].
              exists (VDict fields). split; [auto|]. right. eauto.
           ++ intros (e & [<- | He] & Hc); [|right; apply IH; eauto].
              destruct Hc as [[<- Hs] | (fs & [= <-] & Hv' & _)]; [discriminate|].
              left. congruence.
        -- split; [exact Hrest|].
           intros (e & [<- | He] & Hc); [|apply IH; eauto].
           destruct Hc as [[<- Hs] | (fs & [= <-] & Hv' & Htv)]; [discriminate|].
           congruence.
      * split; [exact Hrest|].
        intros (e & [<- | He] & Hc); [|apply IH; eauto].
        destruct Hc as [[<- Hs] | (fs & [= <-] & Hv' & Htv)]; [discriminate|].
        congruence.
Qed.

Lemma iter_roster_field field entries :
  roster_field field entries ->
  iter (or_else (from_option id VNone field) (VList [])) = Ok entries /\
  iter (or_else (from_option id (VList []) field) (VList [])) = Ok entries.
Proof.
  unfold roster_field, or_else. destruct field as [v|]; simpl.
  - intros [[Hf ->] | ->].
    + rewrite Hf. split; reflexivity.
    + destruct entries; split; reflexivity.
  - intros ->. split; reflexivity.
Qed.

(** C6 as stated fails: a [list] field holding a number makes the loop
    raise, and an object entry whose [name] is a number is passed on as
    it is, so that the first list is not a list of strings. *)
Lemma extract_players_not_total :
  extract_players (VDict [("players", VDict [("list", VInt 7)])]) = Raise TypeError /\
  extract_players (VDict [("players", VDict [("list", VList [VDict [("name", VInt 7)]])])])
    = Ok ([VInt 7], []).
Proof. split; reflexivity. Qed.

(** C6, amended: on a payload object whose [players] is absent or an
    object, and whose [list] and [uuid] are each absent, falsy or an
    array, [extract_players] returns two lists.  They hold the bare-string
    entries and the truthy [name] / [uuid] values of the object entries,
    nothing else; they are empty when the field is missing or empty; they
    hold strings only when the object entries carry strings. *)
Theorem extract_players_tolerant fields pfields entries id_entries :
  (assoc "players" fields = None /\ pfields = []) \/
    assoc "players" fields = Some (VDict pfields) ->
  roster_field (assoc "list" pfields) entries ->
  roster_field (assoc "uuid" pfields) id_entries ->
  exists names uuids,
    extract_players (VDict fields) = Ok (names, uuids) /\
    (forall v, In v names <-> exists entry, In entry entries /\ carries "name" entry v) /\
    (forall v, In v uuids <-> exists entry, In entry id_entries /\ carries "uuid" entry v) /\
    (entries = [] -> names = []) /\
    (id_entries = [] -> uuids = []) /\
    (Forall (string_valued "name") entries -> Forall (fun v => is_str v = true) names) /\
    (Forall (string_valued "uuid") id_entries -> Forall (fun v => is_str v = true) uuids).
Proof.
  intros Hplayers Hlist Huuid.
  apply iter_roster_field in Hlist as [Hlist _].
  apply iter_roster_field in Huuid as [_ Huuid].
  exists (names_of entries), (uuids_of id_entries).
  split.
  { unfold extract_players, get, get_default.
    destruct Hplayers as [[-> ->] | ->]; simpl in *.
    - injection Hlist as <-. injection Huuid as <-. reflexivity.
    - rewrite Hlist. simpl. rewrite Huuid. reflexivity. }
  split; [intros v; apply names_of_spec|].
  split; [intros v; apply uuids_of_spec|].
  split; [intros ->; reflexivity|].
  split; [intros ->; reflexivity|].
  split.
  - intros Hall. apply List.Forall_forall. intros v Hv.
    apply names_of_spec in Hv as (entry & Hin & [[<- Hs] | (fs & -> & Ha & Ht)]).
    + assumption.
    + rewrite List.Forall_forall in Hall. exact (Hall _ Hin fs v eq_refl Ha Ht).
  - intros Hall. apply List.Forall_forall. intros v Hv.
    apply uuids_of_spec in Hv as (entry & Hin & [[<- Hs] | (fs & -> & Ha & Ht)]).
    + assumption.
    + rewrite List.Forall_forall in Hall. exact (Hall _ Hin fs v eq_refl Ha Ht).
Qed.

Lemma extract_players_tolerant_witness :
  exists names uuids,
    extract_players sample_roster = Ok (names, uuids) /\
    In (VStr "Alex") names /\ uuids = [].
Proof.
  destruct (extract_players_tolerant
              [("online", VBool true);
               ("players",
                VDict [("list", VList [VStr "Steve"; VDict [("name", VStr "Alex")]; VInt 3]);
                       ("uuid", VNone)])]
              [("list", VList [VStr "Steve"; VDict [("name", VStr "Alex")]; VInt 3]);
               ("uuid", VNone)]
              [VStr "Steve"; VDict [("name", VStr "Alex")]; VInt 3] [])
    as (names & uuids & Hex & Hnames & _ & _ & Hempty & _).
  - right. reflexivity.
  - right. reflexivity.
  - left. split; reflexivity.
  - exists names, uuids. split; [exact Hex|]. split.
    + apply Hnames. exists (VDict [("name", VStr "Alex")]). split.
      * simpl. auto.
      * right. exists [("name", VStr "Alex")]. repeat split.
    + apply Hempty. reflexivity.
Defined.

End Roster.

Section Strings.

Lemma append_length s t : String.length (s ++ t) = String.length s + String.length t.
Proof. induction s; simpl; congruence. Qed.

Lemma append_assoc s t u : (s ++ t) ++ u = s ++ t ++ u.
Proof. induction s; simpl; congruence. Qed.

Lemma append_empty_r s : s ++ "" = s.
Proof. induction s; simpl; congruence. Qed.

Lemma append_eq_length s s' t t' :
  String.length s = String.length s' -> s ++ t = s' ++ t' -> s = s' /\ t = t'.
Proof.
  revert s'. induction s as [|x s IH]; intros [|y s'] Hl Heq;
    try discriminate; simpl in *.
  - auto.
  - injection Heq as <- Heq. injection Hl as Hl.
    destruct (IH s' Hl Heq) as [-> ->]. auto.
Qed.

End Strings.

Section Pattern.

Lemma matches_repeat_class ranges n start s k :
  matches_from (Repeat n (Class ranges)) start s k =
  match take_class ranges n s with
  | Some rest => k (match n with O => start | S _ => false end) rest
  | None => false
  end.
Proof.
  revert start s. induction n as [|n IH]; intros start s; [reflexivity|].
  destruct s as [|c rest]; [reflexivity|].
  simpl. destruct (in_class ranges c); [|reflexivity]. simpl.
  etransitivity; [apply (IH false rest)|].
  destruct (take_class ranges n rest); [|reflexivity]. destruct n; reflexivity.
Qed.

Lemma in_class_hex c : in_class hex_ranges c = is_hex_digit c.
Proof. destruct c as [[] [] [] [] [] [] [] []]; reflexivity. Qed.

Lemma take_class_hex n s rest :
  take_class hex_ranges n s = Some rest <->
  exists group, s = group ++ rest /\ hex_group n group.
Proof.
  revert s. induction n as [|n IH]; intros s; cbn [take_class].
  - split.
    + intros [= ->]. exists "". repeat split.
    + intros (group & -> & Hlen & _). destruct group; [reflexivity | discriminate].
  - destruct s as [|c s'].
    + split; [discriminate|].
      intros (group & Heq & Hlen & _). destruct group; discriminate.
    + rewrite in_class_hex. destruct (is_hex_digit c) eqn:Hc.
      * rewrite IH. split.
        -- intros (group & -> & Hlen & Hall). exists (String c group).
           repeat split; simpl; [congruence | rewrite Hc; assumption].
        -- intros (group & Heq & Hlen & Hall).
           destruct group as [|c' group]; [discriminate|].
           simpl in *. injection Heq as <- ->. injection Hlen as Hlen.
           rewrite Hc in Hall. exists group. repeat split; assumption.
      * split; [discriminate|].
        intros (group & Heq & Hlen & Hall).
        destruct group as [|c' group]; [discriminate|].
        simpl in *. injection Heq as <- ->. rewrite Hc in Hall. discriminate.
Qed.

Lemma at_eol_spec s : at_eol s = true <-> s = "" \/ s = line_feed.
Proof.
  destruct s as [|c [|c' s']]; simpl.
  - split; auto.
  - split.
    + intros H. apply Ascii.eqb_eq in H as ->. auto.
    + intros [H | [= ->]]; [discriminate | reflexivity].
  - split; [discriminate|]. intros [H | H]; discriminate.
Qed.

Lemma matches_group_hyphen n r start s k :
  matches_from (Seq (Repeat (S n) hex) (Seq (Lit "-") r)) start s k = true <->
  exists group rest,
    s = group ++ "-" ++ rest /\ hex_group (S n) group /\
    matches_from r false rest k = true.
Proof.
  change hex with (Class hex_ranges).
  change (matches_from (Seq ?r1 ?r2) start s k)
    with (matches_from r1 start s (fun b s' => matches_from r2 b s' k)).
  rewrite matches_repeat_class.
  destruct (take_class hex_ranges (S n) s) as [tail|] eqn:Htake.
  - apply take_class_hex in Htake as (group & -> & Hgroup).
    destruct tail as [|c rest]; cbn [matches_from].
    + split; [discriminate|].
      intros (g & rest & Heq & [Hlen _] & _). exfalso.
      apply (f_equal String.length) in Heq.
      rewrite !append_length in Heq. destruct Hgroup as [Hl _].
      simpl in Heq. lia.
    + rewrite andb_true_iff, Ascii.eqb_eq. split.
      * intros [-> H]. exists group, rest. auto.
      * intros (g & rest' & Heq & Hg & H).
        assert (group = g /\ String c rest = "-" ++ rest') as [-> [= -> ->]].
        { apply append_eq_length; [|assumption].
          destruct Hg as [Hl _], Hgroup as [Hl' _]. congruence. }
        auto.
  - split; [discriminate|].
    intros (group & rest & -> & Hgroup & _).
    assert (take_class hex_ranges (S n) (group ++ "-" ++ rest) = Some ("-" ++ rest)) as E
      by (apply take_class_hex; eauto).
    congruence.
Qed.

Lemma matches_group_eol n start s :
  matches_from (Seq (Repeat (S n) hex) Eol) start s (fun _ _ => true) = true <->
  exists group, hex_group (S n) group /\ (s = group \/ s = group ++ line_feed).
Proof.
  change hex with (Class hex_ranges).
  change (matches_from (Seq ?r1 ?r2) start s ?k)
    with (matches_from r1 start s (fun b s' => matches_from r2 b s' k)).
  rewrite matches_repeat_class.
  destruct (take_class hex_ranges (S n) s) as [tail|] eqn:Htake.
  - apply take_class_hex in Htake as (group & -> & Hgroup).
    cbn [matches_from]. rewrite andb_true_r, at_eol_spec. split.
    + intros [-> | ->]; exists group; split; auto.
      left. apply append_empty_r.
    + intros (g & Hg & Heq).
      assert (Hlen : String.length tail = 0 \/ tail = line_feed /\ g = group).
      { destruct Hg as [Hl _], Hgroup as [Hl' _].
        destruct Heq as [Heq | Heq].
        - left. apply (f_equal String.length) in Heq.
          rewrite append_length in Heq. lia.
        - right. apply append_eq_length in Heq as [-> ->]; [auto | congruence]. }
      destruct Hlen as [Hlen | [-> _]]; [|auto].
      destruct tail; [auto | discriminate].
  - split; [discriminate|].
    intros (group & Hgroup & [-> | ->]).
    + assert (take_class hex_ranges (S n) (group ++ "") = Some "") as E
        by (apply take_class_hex; eauto).
      rewrite append_empty_r in E. congruence.
    + assert (take_class hex_ranges (S n) (group ++ line_feed) = Some line_feed) as E
        by (apply take_class_hex; eauto).
      congruence.
Qed.

(** What [UUID_REGEX.match] accepts: an identifier in the format of the
    specification, possibly followed by one line feed. *)
Lemma re_match_UUID_REGEX s :
  re_match UUID_REGEX s = true <->
  exists core, identifier_shaped core /\ (s = core \/ s = core ++ line_feed).
Proof.
  unfold re_match, UUID_REGEX.
  change (matches_from (Alt ?r1 ?r2) true s ?k)
    with (matches_from r1 true s k || matches_from r2 true s k).
  change (matches_from (Seq Bol ?r) true s ?k) with (true && matches_from r true s k).
  change (matches_from (Seq Bol ?r) true s ?k) with (true && matches_from r true s k).
  rewrite !andb_true_l, orb_true_iff, matches_group_eol. split.
  - intros [(core & Hcore & Hs) | H].
    + exists core. split; [left|]; assumption.
    + apply matches_group_hyphen in H as (a & s1 & -> & Ha & H).
      apply matches_group_hyphen in H as (b & s2 & -> & Hb & H).
      apply matches_group_hyphen in H as (c & s3 & -> & Hc & H).
      apply matches_group_hyphen in H as (d & s4 & -> & Hd & H).
      apply matches_group_eol in H as (e & He & Hs).
      exists (hyphenated a b c d e). split.
      * right. exists a, b, c, d, e. auto 10.
      * unfold hyphenated. destruct Hs as [-> | ->]; [left; reflexivity|].
        right. rewrite <- !append_assoc. reflexivity.
  - intros (core & [Hcore | (a & b & c & d & e & -> & Ha & Hb & Hc & Hd & He)] & Hs).
    + left. eauto.
    + right. unfold hyphenated in Hs.
      assert (Hs' : exists tail, s = a ++ "-" ++ b ++ "-" ++ c ++ "-" ++ d ++ "-" ++ tail
                                 /\ (tail = e \/ tail = e ++ line_feed)).
      { destruct Hs as [-> | ->]; [eauto|].
        exists (e ++ line_feed). split; [|auto].
        rewrite <- !append_assoc. reflexivity. }
      destruct Hs' as (tail & -> & Htail).
      apply matches_group_hyphen. eexists a, _. split; [reflexivity|]. split; [exact Ha|].
      apply matches_group_hyphen. eexists b, _. split; [reflexivity|]. split; [exact Hb|].
      apply matches_group_hyphen. eexists c, _. split; [reflexivity|]. split; [exact Hc|].
      apply matches_group_hyphen. eexists d, _. split; [reflexivity|]. split; [exact Hd|].
      apply matches_group_eol. eauto.
Qed.

End Pattern.


Section Verdict.

Lemma mapM_str_method (f : string -> string) (l : list value) (l' : list string) :
  mapM (str_method f) l = Ok l' ->
  forall s, In s l' <-> exists x, In (VStr x) l /\ s = f x.
Proof.
  revert l'. induction l as [|v l IH]; intros l'; simpl.
  - intros [= <-] s. simpl. split; [tauto|]. intros (? & [] & _).
  - destruct v; simpl; try discriminate.
    destruct (mapM (str_method f) l) as [tail|]; simpl; [|discriminate].
    intros [= <-] t. simpl. rewrite (IH tail eq_refl). split.
    + intros [<- | (x & Hx & ->)]; eauto.
    + intros (x & [[= ->] | Hx] & ->); eauto.
Qed.

Lemma existsb_eqb (a : string) (l : list string) :
  existsb (String.eqb a) l = true <-> In a l.
Proof.
  rewrite existsb_exists. split.
  - intros (x & Hx & Heq). apply String.eqb_eq in Heq as ->. assumption.
  - intros H. exists a. split; [assumption | apply String.eqb_refl].
Qed.

Lemma truthy_str s : truthy (VStr s) = true <-> s <> "".
Proof.
  simpl. destruct (String.eqb_spec s ""); simpl; split; congruence.
Qed.

(** A payload puts its server on the list only under the stated conditions. *)
Lemma check_payload_via_sound str_lower player_name player_uuid payload :
  check_payload_via str_lower player_name player_uuid payload = Ok true ->
  reports_online payload /\
  (name_on_roster str_lower player_name payload \/
   identifier_on_roster str_lower player_uuid payload).
Proof.
  unfold check_payload_via, reports_online, name_on_roster, identifier_on_roster.
  destruct (get payload "online") as [flag|]; simpl; [|discriminate].
  destruct (truthy flag) eqn:Hflag; simpl; [|discriminate].
  destruct (extract_players payload) as [[names uuids]|]; simpl; [|discriminate].
  destruct (mapM (str_method str_lower) names) as [lowered|] eqn:Hnames; simpl;
    [|discriminate].
  intros H. split; [eauto|].
  destruct (existsb (String.eqb (str_lower player_name)) lowered) eqn:Hfound.
  - left. apply existsb_eqb in Hfound.
    apply (mapM_str_method _ _ _ Hnames) in Hfound as (entry & Hin & Heq).
    eauto 10.
  - right. destruct (truthy player_uuid) eqn:Hid; [|discriminate].
    destruct player_uuid as [| | | | id | |]; simpl in H; try discriminate.
    destruct (mapM (str_method (normalize_uuid_via str_lower)) uuids)
      as [known|] eqn:Hknown; simpl in H; [|discriminate].
    injection H as H. apply existsb_eqb in H.
    apply (mapM_str_method _ _ _ Hknown) in H as (entry & Hin & Heq).
    unfold normalize_uuid_via in Heq.
    apply truthy_str in Hid. eauto 12.
Qed.

(** Under the stated conditions a payload that is processed without an
    exception puts its server on the list. *)
Lemma check_payload_via_complete str_lower player_name player_uuid payload b :
  check_payload_via str_lower player_name player_uuid payload = Ok b ->
  reports_online payload ->
  name_on_roster str_lower player_name payload \/
  identifier_on_roster str_lower player_uuid payload ->
  b = true.
Proof.
  unfold check_payload_via, reports_online, name_on_roster, identifier_on_roster.
  intros H (flag & Hget & Hflag) Hlisted. rewrite Hget in H. simpl in H.
  rewrite Hflag in H. simpl in H.
  destruct (extract_players payload) as [[names uuids]|]; simpl in H; [|discriminate].
  destruct (mapM (str_method str_lower) names) as [lowered|] eqn:Hnames; simpl in H;
    [|discriminate].
  destruct (existsb (String.eqb (str_lower player_name)) lowered) eqn:Hfound;
    [congruence|].
  destruct Hlisted as [(ns & us & entry & [= <- <-] & Hin & Heq)
                      | (ns & us & id & entry & [= <- <-] & -> & Hid & Hin & Heq)].
  - assert (In (str_lower player_name) lowered) as Hl
      by (apply (mapM_str_method _ _ _ Hnames); eauto).
    apply existsb_eqb in Hl. congruence.
  - apply truthy_str in Hid. rewrite Hid in H. simpl in H.
    destruct (mapM (str_method (normalize_uuid_via str_lower)) uuids)
      as [known|] eqn:Hknown; simpl in H; [|discriminate].
    injection H as <-. apply existsb_eqb.
    apply (mapM_str_method _ _ _ Hknown). exists entry. split; [assumption|].
    exact Heq.
Qed.

Lemma check_payload_via_offline str_lower player_name player_uuid payload :
  get payload "online" = Ok (VBool false) ->
  check_payload_via str_lower player_name player_uuid payload = Ok false.
Proof. unfold check_payload_via. intros ->. reflexivity. Qed.

Lemma omap_lookup_seq {A} (pre l : list A) :
  omap (fun i => (pre ++ l)%list !! i) (seq (length pre) (length l)) = l.
Proof.
  revert pre. induction l as [|x l IH]; intros pre; [reflexivity|].
  simpl. rewrite list_lookup_middle by reflexivity. f_equal.
  specialize (IH (pre ++ [x])%list). rewrite <- app_assoc, length_app in IH.
  simpl in IH. rewrite Nat.add_1_r in IH. exact IH.
Qed.

End Verdict.
Section FanOutVia.

Variable str_lower : string -> string.
Variable probes : list (ServerTarget * result response).
Variable player_name : string.
Variable player_uuid : value.

Local Abbreviation step := (step_via str_lower probes player_name player_uuid).
Local Abbreviation run := (run_via str_lower probes player_name player_uuid).
Local Abbreviation verdict answer :=
  (check_server_via str_lower player_name player_uuid (fetch_json answer)).

Lemma sum_list_insert (f : task -> nat) (l : list task) i x y :
  l !! i = Some y ->
  sum_list (f <$> <[i := x]> l) + f y = sum_list (f <$> l) + f x.
Proof.
  revert i. induction l as [|t l IH]; intros [|i] H; csimpl in *; try discriminate.
  - injection H as ->. lia.
  - specialize (IH i H). lia.
Qed.

Lemma in_flight_sum st :
  in_flight st = sum_list ((fun t => if is_in_flight t then 1 else 0) <$> tasks st).
Proof.
  unfold in_flight. induction (tasks st) as [|t l IH]; [reflexivity|].
  rewrite filter_cons. csimpl. rewrite <- IH.
  case_decide as E; destruct t; simpl in *; congruence.
Qed.

(** The two ways a scheduling step can go through. *)
Lemma step_via_inv a st st' :
  step a st = Some st' ->
  exists i target answer,
    probes !! i = Some (target, answer) /\
    ((a = Acquire i /\ tasks st !! i = Some Pending /\ (0 < semaphore st)%Z /\
      tasks st' = <[i := InFlight]> (tasks st) /\
      semaphore st' = (semaphore st - 1)%Z /\
      matches st' = matches st /\ raised st' = raised st /\
      requests st' = (requests st ++ [StatusGet (address target)])%list)
     \/
     (a = Complete i /\ tasks st !! i = Some InFlight /\
      tasks st' = <[i := Finished]> (tasks st) /\
      semaphore st' = (semaphore st + 1)%Z /\
      matches st' =
        match verdict answer with
        | Ok true => (matches st ++ [target])%list
        | _ => matches st
        end /\
      raised st' =
        match raised st, verdict answer with
        | None, Raise e => Some e
        | r, _ => r
        end /\
      requests st' = requests st)).
Proof.
  destruct a as [i|i]; simpl;
    destruct (tasks st !! i) as [[]|] eqn:Ht; try discriminate;
    destruct (probes !! i) as [[target answer]|] eqn:Hp; try discriminate.
  - destruct (Z.ltb_spec 0 (semaphore st)); [|discriminate].
    intros [= <-]. exists i, target, answer. split; [exact Hp|]. left.
    simpl. auto 10.
  - intros [= <-]. exists i, target, answer. split; [exact Hp|]. right.
    simpl. auto 10.
Qed.

(** A property of states that every step keeps holds along a run. *)
Lemma run_via_invariant (P : state -> Prop) :
  (forall a st st', P st -> step a st = Some st' -> P st') ->
  forall schedule st st', P st -> run schedule st = Some st' -> P st'.
Proof.
  intros Hstep schedule. induction schedule as [|a rest IH]; intros st st' HP; simpl.
  - intros [= <-]. exact HP.
  - destruct (step a st) as [st1|] eqn:Ha; [|discriminate].
    apply IH. exact (Hstep _ _ _ HP Ha).
Qed.

Lemma step_via_slots capacity a st st' :
  slots_ok probes capacity st -> step a st = Some st' -> slots_ok probes capacity st'.
Proof.
  intros (Hpos & Hsum & Hlen) Hstep. unfold slots_ok.
  rewrite in_flight_sum in *.
  apply step_via_inv in Hstep
    as (i & target & answer & _ & [(_ & Hi & Hsem & -> & -> & _) | (_ & Hi & -> & -> & _)]);
    rewrite length_insert;
    pose proof (sum_list_insert (fun t => if is_in_flight t then 1 else 0)
                  _ i InFlight _ Hi) as HA;
    pose proof (sum_list_insert (fun t => if is_in_flight t then 1 else 0)
                  _ i Finished _ Hi) as HB;
    simpl in HA, HB; repeat split; try assumption; lia.
Qed.

Lemma init_slots capacity st0 :
  init probes capacity = Ok st0 -> slots_ok probes capacity st0.
Proof.
  unfold init. destruct (Z.ltb_spec capacity 0); [discriminate|].
  intros [= <-]. unfold slots_ok. rewrite in_flight_sum. simpl.
  rewrite length_replicate, fmap_replicate, sum_list_replicate. simpl.
  repeat split; lia.
Qed.

(** What a run leaves behind, read off its schedule. *)
Lemma run_via_trace schedule st st' :
  run schedule st = Some st' ->
  NoDup (completed schedule) /\
  (forall i, i ∈ completed schedule ->
     tasks st !! i <> Some Finished /\ is_Some (probes !! i)) /\
  (forall i, tasks st' !! i = Some Finished <->
     tasks st !! i = Some Finished \/ i ∈ completed schedule) /\
  matches st' =
    (matches st ++ appended_via str_lower probes player_name player_uuid (completed schedule))%list /\
  (raised st' = None ->
   raised st = None /\
   forall i target answer,
     i ∈ completed schedule -> probes !! i = Some (target, answer) ->
     exists b, verdict answer = Ok b).
Proof.
  revert st. induction schedule as [|a rest IH]; intros st; simpl.
  { intros [= <-]. unfold appended_via. simpl. rewrite app_nil_r.
    split; [constructor|]. split; [intros i Hi; inversion Hi|].
    split; [intros i; rewrite elem_of_nil; tauto|].
    split; [reflexivity|]. intros Hr. split; [assumption|].
    intros i ? ? Hi. inversion Hi. }
  destruct (step a st) as [st1|] eqn:Ha; [|discriminate].
  intros Hrun. destruct (IH _ Hrun) as (Hnd & Hfresh & Hfin & Hm & Hr). clear IH.
  apply step_via_inv in Ha as (i & target & answer & Hp &
    [(-> & Hi & _ & Ht & _ & Hm1 & Hr1 & _) | (-> & Hi & Ht & _ & Hm1 & Hr1 & _)]).
  - (* Acquire *)
    assert (Hsame : forall j, tasks st1 !! j = Some Finished <-> tasks st !! j = Some Finished).
    { intros j. rewrite Ht, list_lookup_insert. case_decide as E; [|tauto].
      destruct E as [<- _]. rewrite Hi. split; discriminate. }
    change (completed (Acquire i :: rest)) with (completed rest).
    split; [assumption|]. split.
    { intros j Hj. destruct (Hfresh j Hj) as [Hnf Hsome].
      split; [|assumption]. rewrite <- Hsame. assumption. }
    split; [intros j; rewrite Hfin, Hsame; tauto|].
    split; [congruence|]. intros Hnone. destruct (Hr Hnone) as [Hr0 Hall].
    split; [congruence | assumption].
  - (* Complete *)
    assert (Hlt : i < length (tasks st)) by (apply lookup_lt_is_Some_1; eauto).
    assert (Hdone : tasks st1 !! i = Some Finished).
    { rewrite Ht. apply list_lookup_insert_eq. assumption. }
    assert (Hother : forall j, j <> i -> tasks st1 !! j = tasks st !! j).
    { intros j Hj. rewrite Ht. apply list_lookup_insert_ne. congruence. }
    change (completed (Complete i :: rest)) with (i :: completed rest).
    split.
    { apply NoDup_cons. split; [|assumption].
      intros Hin. apply Hfresh in Hin as [Hnf _]. contradiction. }
    split.
    { intros j. rewrite elem_of_cons. intros [-> | Hj].
      - split; [rewrite Hi; discriminate | eauto].
      - destruct (Hfresh j Hj) as [Hnf Hsome]. split; [|assumption].
        destruct (decide (j = i)) as [-> | Hne]; [congruence|].
        rewrite <- (Hother j Hne). assumption. }
    split.
    { intros j. rewrite Hfin, elem_of_cons.
      destruct (decide (j = i)) as [-> | Hne].
      - split; auto.
      - rewrite (Hother j Hne). split; [tauto|]. intros [? | [? | ?]]; auto.
        contradiction. }
    split.
    { rewrite Hm, Hm1. unfold appended_via. simpl. rewrite Hp. simpl.
      rewrite filter_cons.
      assert (Hinc : included_via str_lower player_name player_uuid (target, answer) =
                     match verdict answer with Ok true => true | _ => false end)
        by reflexivity.
      destruct (verdict answer) as [[]|]; case_decide as Hd; rewrite Hinc in Hd;
        try discriminate; try congruence; csimpl; rewrite <- ?app_assoc;
        reflexivity. }
    intros Hnone. destruct (Hr Hnone) as [Hr0 Hall].
    rewrite Hr1 in Hr0.
    destruct (raised st) eqn:Hraised; [destruct (verdict answer); discriminate|].
    split; [reflexivity|]. intros j tj aj. rewrite elem_of_cons.
    intros [-> | Hj] Hpj; [|eauto].
    rewrite Hp in Hpj. injection Hpj as <- <-.
    destruct (verdict answer); [eauto | discriminate].
Qed.

End FanOutVia.

Section FanOut.

Variable probes : list (ServerTarget * result response).
Variable player_name : string.
Variable player_uuid : value.

Local Abbreviation step := (step probes player_name player_uuid).
Local Abbreviation run := (run probes player_name player_uuid).
Local Abbreviation verdict answer := (check_server player_name player_uuid (fetch_json answer)).

(** The two ways a scheduling step can go through. *)
Lemma step_inv a st st' :
  step a st = Some st' ->
  exists i target answer,
    probes !! i = Some (target, answer) /\
    ((a = Acquire i /\ tasks st !! i = Some Pending /\ (0 < semaphore st)%Z /\
      tasks st' = <[i := InFlight]> (tasks st) /\
      semaphore st' = (semaphore st - 1)%Z /\
      matches st' = matches st /\ raised st' = raised st /\
      requests st' = (requests st ++ [StatusGet (address target)])%list)
     \/
     (a = Complete i /\ tasks st !! i = Some InFlight /\
      tasks st' = <[i := Finished]> (tasks st) /\
      semaphore st' = (semaphore st + 1)%Z /\
      matches st' =
        match verdict answer with
        | Ok true => (matches st ++ [target])%list
        | _ => matches st
        end /\
      raised st' =
        match raised st, verdict answer with
        | None, Raise e => Some e
        | r, _ => r
        end /\
      requests st' = requests st)).
Proof. exact (step_via_inv lower probes player_name player_uuid a st st'). Qed.

Lemma run_app s1 s2 st :
  run (s1 ++ s2) st = match run s1 st with Some st' => run s2 st' | None => None end.
Proof.
  revert st. induction s1 as [|a s1 IH]; intros st; simpl; [reflexivity|].
  destruct (step a st); [apply IH | reflexivity].
Qed.

(** A property of states that every step keeps holds along a run. *)
Lemma run_invariant (P : state -> Prop) :
  (forall a st st', P st -> step a st = Some st' -> P st') ->
  forall schedule st st', P st -> run schedule st = Some st' -> P st'.
Proof. exact (run_via_invariant lower probes player_name player_uuid P). Qed.

Lemma step_slots capacity a st st' :
  slots_ok probes capacity st -> step a st = Some st' -> slots_ok probes capacity st'.
Proof. exact (step_via_slots lower probes player_name player_uuid capacity a st st'). Qed.

(** Every step does one unit of the remaining work. *)
Lemma step_work a st st' : step a st = Some st' -> S (work st') = work st.
Proof.
  intros Hstep. unfold work.
  apply step_inv in Hstep
    as (i & target & answer & _ & [(_ & Hi & _ & -> & _) | (_ & Hi & -> & _)]).
  - pose proof (sum_list_insert remaining _ i InFlight _ Hi). simpl in *. lia.
  - pose proof (sum_list_insert remaining _ i Finished _ Hi). simpl in *. lia.
Qed.

Lemma run_work schedule st st' :
  run schedule st = Some st' -> work st' + length schedule = work st.
Proof.
  revert st. induction schedule as [|a rest IH]; intros st; simpl.
  - intros [= <-]. lia.
  - destruct (step a st) as [st1|] eqn:Ha; [|discriminate].
    intros H. apply IH in H. apply step_work in Ha. lia.
Qed.

Lemma init_work capacity st0 :
  init probes capacity = Ok st0 -> work st0 = 2 * length probes.
Proof.
  unfold init. destruct (capacity <? 0)%Z; [discriminate|].
  intros [= <-]. unfold work. simpl.
  rewrite fmap_replicate, sum_list_replicate. simpl. lia.
Qed.

(** One request per task that has started. *)
Lemma step_requests a st st' :
  requests_sent st -> step a st = Some st' -> requests_sent st'.
Proof.
  unfold requests_sent. intros Hreq Hstep.
  apply step_inv in Hstep
    as (i & target & answer & _ &
        [(_ & Hi & _ & -> & _ & _ & _ & ->) | (_ & Hi & -> & _ & _ & _ & ->)]).
  - pose proof (sum_list_insert started _ i InFlight _ Hi).
    rewrite length_app. simpl in *. lia.
  - pose proof (sum_list_insert started _ i Finished _ Hi). simpl in *. lia.
Qed.

Lemma init_requests capacity st0 :
  init probes capacity = Ok st0 -> requests_sent st0.
Proof.
  unfold init. destruct (capacity <? 0)%Z; [discriminate|].
  intros [= <-]. unfold requests_sent. simpl.
  rewrite fmap_replicate, sum_list_replicate. simpl. lia.
Qed.

Lemma no_work_finished (l : list task) :
  sum_list (remaining <$> l) = 0 -> forallb is_finished l = true.
Proof.
  induction l as [|t l IH]; csimpl; [reflexivity|].
  destruct t; simpl; intros H; try lia. apply IH. lia.
Qed.

Lemma idle_tasks (l : list task) :
  InFlight ∉ l ->
  sum_list ((fun t => if is_in_flight t then 1 else 0) <$> l) = 0 /\
  (Pending ∉ l -> sum_list (remaining <$> l) = 0).
Proof.
  induction l as [|t l IH]; csimpl; [auto|].
  rewrite !not_elem_of_cons. intros [Ht Hl]. destruct (IH Hl) as [IH1 IH2].
  destruct t; simpl; try congruence; split; try lia.
  - intros [? _]. congruence.
  - intros [_ H]. apply IH2 in H. lia.
Qed.

(** With a capacity of at least one, a run that has not finished every
    task can always go on, and going on finishes them all. *)
Lemma run_progress capacity st :
  (1 <= capacity)%Z -> slots_ok probes capacity st ->
  exists rest st',
    run rest st = Some st' /\ forallb is_finished (tasks st') = true.
Proof.
  intros Hcap. remember (work st) as k eqn:Hk. revert st Hk.
  induction k as [|k IH]; intros st Hk Hslots.
  - exists [], st. split; [reflexivity|]. apply no_work_finished. auto.
  - assert (Hnext : exists a st1, step a st = Some st1).
    { destruct Hslots as (Hpos & Hsum & Hlen). rewrite in_flight_sum in Hsum.
      destruct (decide (InFlight ∈ tasks st)) as [Hin | Hnone].
      - apply list_elem_of_lookup in Hin as [i Hi].
        destruct (lookup_lt_is_Some_2 probes i) as [[target answer] Hp].
        { rewrite <- Hlen. apply lookup_lt_is_Some_1. eauto. }
        exists (Complete i). simpl. rewrite Hi, Hp. eauto.
      - destruct (idle_tasks _ Hnone) as [Hzero Hidle].
        destruct (decide (Pending ∈ tasks st)) as [Hin | Hnone'].
        + apply list_elem_of_lookup in Hin as [i Hi].
          destruct (lookup_lt_is_Some_2 probes i) as [[target answer] Hp].
          { rewrite <- Hlen. apply lookup_lt_is_Some_1. eauto. }
          exists (Acquire i). simpl. rewrite Hi, Hp.
          destruct (Z.ltb_spec 0 (semaphore st)); [eauto | lia].
        + apply Hidle in Hnone'. unfold work in Hk. lia. }
    destruct Hnext as (a & st1 & Ha).
    destruct (IH st1) as (rest & st' & Hrun & Hfin).
    + apply step_work in Ha. lia.
    + eapply step_slots; eassumption.
    + exists (a :: rest), st'. simpl. rewrite Ha. auto.
Qed.

(** What a run leaves behind, read off its schedule. *)
Lemma run_trace schedule st st' :
  run schedule st = Some st' ->
  NoDup (completed schedule) /\
  (forall i, i ∈ completed schedule ->
     tasks st !! i <> Some Finished /\ is_Some (probes !! i)) /\
  (forall i, tasks st' !! i = Some Finished <->
     tasks st !! i = Some Finished \/ i ∈ completed schedule) /\
  matches st' =
    (matches st ++ appended probes player_name player_uuid (completed schedule))%list /\
  (raised st' = None ->
   raised st = None /\
   forall i target answer,
     i ∈ completed schedule -> probes !! i = Some (target, answer) ->
     exists b, verdict answer = Ok b).
Proof. exact (run_via_trace lower probes player_name player_uuid schedule st st'). Qed.

End FanOut.
Section Isolation.

Variable probes : list (ServerTarget * result response).
Variable k : nat.
Variable target : ServerTarget.
Variable answer : result response.
Variable player_name : string.
Variable player_uuid : value.

Hypothesis probe_k : probes !! k = Some (target, answer).
Hypothesis probe_fails :
  check_server player_name player_uuid (fetch_json answer) = Ok false.

Local Abbreviation step_whole := (step probes player_name player_uuid).
Local Abbreviation step_part := (step (delete k probes) player_name player_uuid).
Local Abbreviation run_whole := (run probes player_name player_uuid).
Local Abbreviation run_part := (run (delete k probes) player_name player_uuid).

Lemma shift_unshift i : i <> k -> shift k (unshift k i) = i.
Proof.
  unfold shift, unshift. intros Hi.
  destruct (Nat.ltb_spec i k) as [Hlt | Hge].
  - destruct (Nat.ltb_spec i k); lia.
  - destruct (Nat.ltb_spec (pred i) k); lia.
Qed.

Lemma shift_neq j : shift k j <> k.
Proof. unfold shift. destruct (Nat.ltb_spec j k); lia. Qed.

Lemma lookup_delete_shift {A} (l : list A) j : delete k l !! j = l !! shift k j.
Proof.
  unfold shift. destruct (Nat.ltb_spec j k).
  - apply list_lookup_delete_lt. assumption.
  - apply list_lookup_delete_ge. assumption.
Qed.

Lemma delete_insert_shift {A} (l : list A) j x :
  delete k (<[shift k j := x]> l) = <[j := x]> (delete k l).
Proof.
  apply list_eq. intros i.
  rewrite lookup_delete_shift, !list_lookup_insert, lookup_delete_shift.
  destruct (decide (i = j)) as [-> | Hne].
  - assert (Hiff : j < length (delete k l) <-> shift k j < length l).
    { rewrite <- !lookup_lt_is_Some, lookup_delete_shift. reflexivity. }
    repeat case_decide; try reflexivity; exfalso; tauto.
  - assert (shift k j <> shift k i).
    { unfold shift. destruct (Nat.ltb_spec j k), (Nat.ltb_spec i k); lia. }
    repeat case_decide; try reflexivity; exfalso; intuition congruence.
Qed.

Lemma delete_insert_same {A} (l : list A) x : delete k (<[k := x]> l) = delete k l.
Proof.
  apply list_eq. intros i.
  rewrite !lookup_delete_shift, list_lookup_insert_ne; [reflexivity|].
  apply not_eq_sym, shift_neq.
Qed.

Lemma step_without t a whole whole' part :
  related k t whole part ->
  step_whole a whole = Some whole' ->
  exists t' part',
    run_part (option_list (without k a)) part = Some part' /\
    related k t' whole' part'.
Proof.
  intros [Htasks Htask Hsem Hmatches Hraised] Hstep.
  apply step_inv in Hstep as (i & ti & ai & Hp & Hcase).
  unfold without.
  destruct Hcase as [(-> & Hi & Hpos & Ht & Hs & Hm & Hr & _)
                    | (-> & Hi & Ht & Hs & Hm & Hr & _)]; simpl;
    destruct (Nat.eqb_spec i k) as [-> | Hne]; simpl.
  - (* the left-out task takes a slot *)
    assert (t = Pending) as -> by congruence.
    exists InFlight, part. split; [reflexivity|].
    split; simpl; try congruence.
    + rewrite Ht, delete_insert_same. assumption.
    + rewrite Ht. apply list_lookup_insert_eq, lookup_lt_is_Some_1. eauto.
    + simpl in Hsem. lia.
  - rewrite <- (shift_unshift i Hne) in Hi, Hp, Ht.
    rewrite Htasks, !lookup_delete_shift, Hi, Hp.
    assert (0 < semaphore part)%Z by (destruct (is_in_flight t); lia).
    destruct (Z.ltb_spec 0 (semaphore part)); [|lia].
    eexists t, _. split; [reflexivity|].
    split; simpl; try congruence.
    + rewrite Ht, delete_insert_shift. reflexivity.
    + rewrite Ht, list_lookup_insert_ne; [assumption | apply shift_neq].
    + lia.
  - (* the left-out task returns *)
    assert (t = InFlight) as -> by congruence.
    assert (ti = target /\ ai = answer) as [-> ->] by (split; congruence).
    rewrite probe_fails in Hm, Hr.
    exists Finished, part. split; [reflexivity|].
    split; simpl; try congruence.
    + rewrite Ht, delete_insert_same. assumption.
    + rewrite Ht. apply list_lookup_insert_eq, lookup_lt_is_Some_1. eauto.
    + simpl in Hsem. lia.
    + rewrite Hr, Hraised. destruct (raised whole); reflexivity.
  - rewrite <- (shift_unshift i Hne) in Hi, Hp, Ht.
    rewrite Htasks, !lookup_delete_shift, Hi, Hp.
    eexists t, _. split; [reflexivity|].
    split; simpl; try congruence.
    + rewrite Ht, delete_insert_shift. reflexivity.
    + rewrite Ht, list_lookup_insert_ne; [assumption | apply shift_neq].
    + lia.
    + rewrite Hm, Hmatches. reflexivity.
    + rewrite Hr, Hraised. reflexivity.
Qed.

Lemma run_without schedule : forall t whole whole' part,
  related k t whole part ->
  run_whole schedule whole = Some whole' ->
  exists t' part',
    run_part (omap (without k) schedule) part = Some part' /\
    related k t' whole' part'.
Proof.
  induction schedule as [|a rest IH]; intros t whole whole' part Hrel; simpl.
  - intros [= <-]. eauto.
  - destruct (step_whole a whole) as [whole1|] eqn:Ha; [|discriminate].
    intros Hrun.
    destruct (step_without _ _ _ _ _ Hrel Ha) as (t1 & part1 & Hone & Hrel1).
    destruct (IH _ _ _ _ Hrel1 Hrun) as (t' & part' & Hrest & Hrel').
    exists t', part'. split; [|assumption].
    destruct (without k a) as [a'|]; simpl in *.
    + destruct (step_part a' part); [|discriminate].
      injection Hone as ->. assumption.
    + injection Hone as ->. assumption.
Qed.

Lemma step_with whole part a part' :
  related k Finished whole part ->
  step_part a part = Some part' ->
  exists whole',
    step_whole (reindex (shift k) a) whole = Some whole' /\
    related k Finished whole' part'.
Proof.
  intros [Htasks Htask Hsem Hmatches Hraised] Hstep. simpl in Hsem.
  apply step_inv in Hstep as (j & tj & aj & Hp & Hcase).
  rewrite lookup_delete_shift in Hp.
  destruct Hcase as [(-> & Hj & Hpos & Ht & Hs & Hm & Hr & _)
                    | (-> & Hj & Ht & Hs & Hm & Hr & _)];
    rewrite Htasks, lookup_delete_shift in Hj; simpl; rewrite Hj, Hp.
  - destruct (Z.ltb_spec 0 (semaphore whole)); [|lia].
    eexists. split; [reflexivity|].
    split; simpl; try congruence.
    + rewrite Ht, Htasks, delete_insert_shift. reflexivity.
    + rewrite list_lookup_insert_ne; [assumption | apply shift_neq].
    + lia.
  - eexists. split; [reflexivity|].
    split; simpl; try congruence.
    + rewrite Ht, Htasks, delete_insert_shift. reflexivity.
    + rewrite list_lookup_insert_ne; [assumption | apply shift_neq].
    + lia.
    + rewrite Hm, Hmatches. reflexivity.
    + rewrite Hr, Hraised. reflexivity.
Qed.

Lemma run_with schedule : forall whole part part',
  related k Finished whole part ->
  run_part schedule part = Some part' ->
  exists whole',
    run_whole (reindex (shift k) <$> schedule) whole = Some whole' /\
    related k Finished whole' part'.
Proof.
  induction schedule as [|a rest IH]; intros whole part part' Hrel; simpl.
  - intros [= <-]. eauto.
  - destruct (step_part a part) as [part1|] eqn:Ha; [|discriminate].
    intros Hrun.
    destruct (step_with _ _ _ _ Hrel Ha) as (whole1 & Hone & Hrel1).
    rewrite Hone. eauto.
Qed.

Lemma forallb_delete (l : list task) t :
  l !! k = Some t ->
  forallb is_finished l = is_finished t && forallb is_finished (delete k l).
Proof.
  intros Hk. rewrite <- (take_drop_middle l k t Hk) at 1.
  rewrite delete_take_drop, !forallb_app. simpl.
  destruct (forallb is_finished (take k l)), (is_finished t); reflexivity.
Qed.

Lemma related_outcome t whole part r :
  related k t whole part -> outcome whole = Some r -> outcome part = Some r.
Proof.
  intros [Htasks Htask _ Hmatches Hraised]. unfold outcome.
  rewrite Hraised, Hmatches, Htasks, (forallb_delete _ _ Htask).
  destruct (raised whole); [auto|].
  destruct (is_finished t); simpl; [auto | discriminate].
Qed.

Lemma related_outcome_finished whole part r :
  related k Finished whole part -> outcome part = Some r -> outcome whole = Some r.
Proof.
  intros [Htasks Htask _ Hmatches Hraised]. unfold outcome.
  rewrite Hraised, Hmatches, Htasks, (forallb_delete _ _ Htask). auto.
Qed.

End Isolation.
Section LookupVia.

Variable str_lower : string -> string.
Variable probes : list (ServerTarget * result response).
Variable player_name : string.
Variable player_uuid : value.

Local Abbreviation run := (run_via str_lower probes player_name player_uuid).
Local Abbreviation find := (find_player_servers_via str_lower probes player_name player_uuid).

Lemma find_player_servers_via_inv capacity schedule reqs r :
  find capacity schedule = Some (reqs, r) ->
  ((capacity < 0)%Z /\ r = Raise ValueError /\ reqs = []) \/
  exists st0 st,
    (0 <= capacity)%Z /\ init probes capacity = Ok st0 /\
    run schedule st0 = Some st /\ outcome st = Some r /\ reqs = requests st.
Proof.
  unfold find_player_servers_via, init.
  destruct (Z.ltb_spec capacity 0) as [Hneg | Hpos].
  - intros [= <- <-]. left. auto.
  - match goal with |- context [run schedule ?s] => set (st0 := s) end.
    destruct (run schedule st0) as [st|] eqn:Hrun; [|discriminate].
    destruct (outcome st) as [r'|] eqn:Hout; [|discriminate].
    intros [= <- <-]. right. exists st0, st. auto.
Qed.

Lemma outcome_finished st : forallb is_finished (tasks st) = true -> is_Some (outcome st).
Proof. unfold outcome. intros ->. destruct (raised st); eauto. Qed.

Lemma outcome_ok st found :
  outcome st = Some (Ok found) ->
  raised st = None /\ forallb is_finished (tasks st) = true /\ found = matches st.
Proof.
  unfold outcome. destruct (raised st); [discriminate|].
  destruct (forallb is_finished (tasks st)); [|discriminate].
  intros [= <-]. auto.
Qed.

Lemma finished_lookup (l : list task) i t :
  forallb is_finished l = true -> l !! i = Some t -> t = Finished.
Proof.
  intros Hall Hi. rewrite forallb_forall in Hall.
  apply list_elem_of_lookup_2, list_elem_of_In, Hall in Hi.
  destruct t; [discriminate.. | reflexivity].
Qed.

(** A run that has finished every task has completed each of them once. *)
Lemma complete_order_via capacity schedule st0 st :
  init probes capacity = Ok st0 -> run schedule st0 = Some st ->
  forallb is_finished (tasks st) = true ->
  Permutation (completed schedule) (seq 0 (length probes)).
Proof.
  intros Hinit Hrun Hall.
  assert (Hlen : length (tasks st) = length probes).
  { apply init_slots in Hinit.
    apply (run_via_invariant str_lower probes player_name player_uuid
             (slots_ok probes capacity)
             (step_via_slots str_lower probes player_name player_uuid capacity)
             _ _ _ Hinit Hrun). }
  destruct (run_via_trace _ _ _ _ _ _ _ Hrun) as (Hnd & Hfresh & Hfin & _).
  apply NoDup_Permutation; [assumption | apply NoDup_seq |].
  intros i. rewrite elem_of_seq. split.
  - intros Hi. apply Hfresh in Hi as [_ Hsome].
    apply lookup_lt_is_Some_1 in Hsome. lia.
  - intros [_ Hi]. simpl in Hi. rewrite <- Hlen in Hi.
    apply lookup_lt_is_Some_2 in Hi as [t Ht].
    assert (t = Finished) as -> by (eapply finished_lookup; eassumption).
    apply Hfin in Ht as [Ht | Ht]; [|assumption].
    unfold init in Hinit. destruct (capacity <? 0)%Z; [discriminate|].
    injection Hinit as <-. simpl in Ht.
    apply lookup_replicate in Ht as [? _]. discriminate.
Qed.

(** A lookup that returns a list had a verdict from every probe, and the
    list holds the targets whose verdict was a match. *)
Lemma find_player_servers_via_ok capacity schedule reqs found :
  find capacity schedule = Some (reqs, Ok found) ->
  Permutation (completed schedule) (seq 0 (length probes)) /\
  found = appended_via str_lower probes player_name player_uuid (completed schedule) /\
  forall target answer,
    In (target, answer) probes ->
    exists b, check_server_via str_lower player_name player_uuid (fetch_json answer) = Ok b.
Proof.
  intros Hfind.
  apply find_player_servers_via_inv in Hfind
    as [(_ & [=] & _) | (st0 & st & _ & Hinit & Hrun & Hout & _)].
  apply outcome_ok in Hout as (Hraised & Hall & ->).
  pose proof (complete_order_via _ _ _ _ Hinit Hrun Hall) as Horder.
  destruct (run_via_trace _ _ _ _ _ _ _ Hrun) as (_ & _ & _ & Hm & Hr).
  destruct (Hr Hraised) as [_ Hverdicts].
  split; [assumption|]. split.
  - rewrite Hm. unfold init in Hinit. destruct (capacity <? 0)%Z; [discriminate|].
    injection Hinit as <-. reflexivity.
  - intros target answer Hin.
    apply list_elem_of_In, list_elem_of_lookup in Hin as [i Hi].
    apply (Hverdicts i target answer); [|assumption].
    rewrite Horder. apply elem_of_seq. apply lookup_lt_Some in Hi. lia.
Qed.

End LookupVia.

Section Lookup.

Variable probes : list (ServerTarget * result response).
Variable player_name : string.
Variable player_uuid : value.

Local Abbreviation run := (run probes player_name player_uuid).
Local Abbreviation find := (find_player_servers probes player_name player_uuid).

(** On ASCII text the two renderings of the lookup are one. *)
Lemma check_server_via_lower fetched :
  check_server_via lower player_name player_uuid fetched
    = check_server player_name player_uuid fetched.
Proof. reflexivity. Qed.

Lemma find_player_servers_via_lower capacity schedule :
  find_player_servers_via lower probes player_name player_uuid capacity schedule
    = find capacity schedule.
Proof. reflexivity. Qed.

Lemma find_player_servers_inv capacity schedule reqs r :
  find capacity schedule = Some (reqs, r) ->
  ((capacity < 0)%Z /\ r = Raise ValueError /\ reqs = []) \/
  exists st0 st,
    (0 <= capacity)%Z /\ init probes capacity = Ok st0 /\
    run schedule st0 = Some st /\ outcome st = Some r /\ reqs = requests st.
Proof.
  exact (find_player_servers_via_inv lower probes player_name player_uuid
           capacity schedule reqs r).
Qed.

Lemma find_player_servers_intro capacity schedule st0 st r :
  init probes capacity = Ok st0 -> run schedule st0 = Some st ->
  outcome st = Some r ->
  find capacity schedule = Some (requests st, r).
Proof.
  unfold find_player_servers. intros -> -> ->. reflexivity.
Qed.

Lemma complete_order capacity schedule st0 st :
  init probes capacity = Ok st0 -> run schedule st0 = Some st ->
  forallb is_finished (tasks st) = true ->
  Permutation (completed schedule) (seq 0 (length probes)).
Proof.
  exact (complete_order_via lower probes player_name player_uuid capacity schedule st0 st).
Qed.

End Lookup.
Section Matches.

(** C1: when [find_player_servers] returns a list, no probe has ended in
    an exception that escapes, and the list holds, up to the order of
    completion, the targets whose probe puts them on it; a target whose
    probe succeeded is put on it exactly when its payload reports it
    online and (a) the player's name, lowercased, equals the lowercase of
    an entry of the extracted name list, or (b) the identifier is not
    empty and, hyphens stripped and lowercased on both sides, equals an
    entry of the extracted identifier list; a payload with [online] false
    never puts its target on the list.  [str_lower] is [str.lower],
    whatever it does to a string. *)
Theorem find_player_servers_selects
    str_lower probes player_name player_uuid capacity schedule reqs found :
  find_player_servers_via str_lower probes player_name player_uuid capacity schedule
    = Some (reqs, Ok found) ->
  Permutation found
    (fst <$> filter (fun probe =>
                       included_via str_lower player_name player_uuid probe = true)
               probes) /\
  (forall target answer,
     In (target, answer) probes ->
     exists b,
       check_server_via str_lower player_name player_uuid (fetch_json answer) = Ok b) /\
  forall target answer payload,
    In (target, answer) probes -> fetch_json answer = Ok payload ->
    (included_via str_lower player_name player_uuid (target, answer) = true <->
       reports_online payload /\
       (name_on_roster str_lower player_name payload \/
        identifier_on_roster str_lower player_uuid payload)) /\
    (get payload "online" = Ok (VBool false) ->
       included_via str_lower player_name player_uuid (target, answer) = false).
Proof.
  intros Hfind.
  apply find_player_servers_via_ok in Hfind as (Horder & -> & Hverdicts).
  split; [|split; [exact Hverdicts|]].
  - unfold appended_via.
    pose proof (omap_lookup_seq [] probes) as Hseq. simpl in Hseq.
    rewrite Horder, Hseq. reflexivity.
  - intros target answer payload Hin Hfetch.
    destruct (Hverdicts target answer Hin) as [b Hb].
    unfold included_via. simpl. rewrite Hb.
    unfold check_server_via in Hb. rewrite Hfetch in Hb. split.
    + split.
      * destruct b; [|discriminate]. intros _.
        apply check_payload_via_sound in Hb. assumption.
      * intros [Honline Hlisted].
        rewrite (check_payload_via_complete _ _ _ _ _ Hb Honline Hlisted). reflexivity.
    + intros Hoff. rewrite (check_payload_via_offline _ _ _ _ Hoff) in Hb.
      injection Hb as <-. reflexivity.
Qed.

(** The identifier of the request is hyphenated and partly in capitals,
    the roster of the first server has it bare and in lower case, the
    second server is offline with the same roster: the first is found. *)
Lemma find_player_servers_selects_witness :
  Permutation [server_a]
    (fst <$> filter (fun probe => included_via lower "Nobody" (VStr sample_id) probe = true)
               id_probes) /\
  included_via lower "Nobody" (VStr sample_id) (server_a, answered payload_with_id) = true /\
  included_via lower "Nobody" (VStr sample_id) (server_b, answered offline_with_id) = false.
Proof.
  destruct (find_player_servers_selects lower id_probes "Nobody" (VStr sample_id) 1
              sample_schedule
              [StatusGet (VStr "b.example"); StatusGet (VStr "a.example")] [server_a])
    as (Hperm & _ & Heach); [vm_compute; reflexivity|].
  split; [exact Hperm|]. split.
  - destruct (Heach server_a (answered payload_with_id) payload_with_id) as [Hiff _];
      [left; reflexivity | reflexivity |].
    apply Hiff. split.
    + exists (VBool true). split; reflexivity.
    + right. exists [], [VStr "aaaaaaaaaaaaaaaaaaaaaaaaaaaa0123"], sample_id,
        "aaaaaaaaaaaaaaaaaaaaaaaaaaaa0123".
      split; [reflexivity|]. split; [reflexivity|]. split; [discriminate|].
      split; [left; reflexivity | vm_compute; reflexivity].
  - destruct (Heach server_b (answered offline_with_id) offline_with_id) as [_ Hoff];
      [right; left; reflexivity | reflexivity |].
    apply Hoff. reflexivity.
Defined.

(** C1 as stated fails: the probe of the server succeeds, its payload
    reports it online and lists the very name that is looked for, next to
    an entry whose name is a number.  Lowercasing that number raises
    [AttributeError], which [check_server] does not catch: no run of the
    lookup returns a list, and the server is not reported. *)
Lemma find_player_servers_roster_raises :
  fetch_json (answered mixed_roster) = Ok mixed_roster /\
  reports_online mixed_roster /\
  name_on_roster lower "Steve" mixed_roster /\
  find_player_servers_via lower [(server_a, answered mixed_roster)] "Steve" VNone 1
    [Acquire 0; Complete 0]
    = Some ([StatusGet (VStr "a.example")], Raise AttributeError) /\
  forall str_lower capacity schedule reqs found,
    find_player_servers_via str_lower [(server_a, answered mixed_roster)] "Steve" VNone
      capacity schedule <> Some (reqs, Ok found).
Proof.
  split; [reflexivity|]. split; [exists (VBool true); split; reflexivity|].
  split.
  { exists [VStr "Steve"; VInt 7], [], "Steve".
    split; [reflexivity|]. split; [left; reflexivity | reflexivity]. }
  split; [reflexivity|].
  intros str_lower capacity schedule reqs found Hfind.
  apply find_player_servers_via_ok in Hfind as (_ & _ & Hverdicts).
  destruct (Hverdicts server_a (answered mixed_roster)) as [b Hb];
    [left; reflexivity|].
  discriminate Hb.
Qed.

End Matches.

Section Ceiling.

(** C3: with a capacity of at least one, at every point of every
    interleaving at most [max_concurrency] requests are in flight; a run
    is over after two resumptions per target; the list is returned only
    once every task has returned, each having sent its request; and a
    run that is not over can always be continued to its end, where
    [find_player_servers] has a result. *)
Theorem find_player_servers_ceiling
    probes player_name player_uuid capacity schedule st0 st :
  (1 <= capacity)%Z ->
  init probes capacity = Ok st0 ->
  run probes player_name player_uuid schedule st0 = Some st ->
  (Z.of_nat (in_flight st) <= capacity)%Z /\
  length schedule <= 2 * length probes /\
  (forall found,
     outcome st = Some (Ok found) ->
     Forall (fun t => t = Finished) (tasks st) /\
     length (tasks st) = length probes /\
     in_flight st = 0 /\
     length (requests st) = length probes) /\
  exists rest st' r,
    run probes player_name player_uuid (schedule ++ rest) st0 = Some st' /\
    forallb is_finished (tasks st') = true /\
    outcome st' = Some r.
Proof.
  intros Hcap Hinit Hrun.
  pose proof (init_slots _ _ _ Hinit) as Hslots0.
  pose proof (run_invariant probes player_name player_uuid _
                (step_slots probes player_name player_uuid capacity) _ _ _
                Hslots0 Hrun) as Hslots.
  pose proof (run_invariant probes player_name player_uuid _
                (step_requests probes player_name player_uuid) _ _ _
                (init_requests _ _ _ Hinit) Hrun) as Hreqs.
  pose proof (run_work _ _ _ _ _ _ Hrun) as Hwork.
  rewrite (init_work _ _ _ Hinit) in Hwork.
  split; [destruct Hslots as (? & ? & _); lia|].
  split; [lia|]. split.
  - intros found Hout. apply outcome_ok in Hout as (_ & Hall & _).
    assert (HF : Forall (fun t => t = Finished) (tasks st)).
    { apply Forall_lookup. intros i t Ht. eapply finished_lookup; eassumption. }
    destruct Hslots as (_ & _ & Hlen).
    split; [assumption|]. split; [assumption|]. split.
    + rewrite in_flight_sum. clear - HF.
      induction HF as [|t l -> _ IH]; csimpl; [reflexivity | assumption].
    + unfold requests_sent in Hreqs. rewrite Hreqs, <- Hlen. clear - HF.
      induction HF as [|t l -> _ IH]; csimpl; [reflexivity | congruence].
  - destruct (run_progress probes player_name player_uuid capacity st Hcap Hslots)
      as (rest & st' & Hrest & Hall).
    destruct (outcome_finished _ Hall) as [r Hr].
    exists rest, st', r. rewrite run_app, Hrun. auto.
Qed.

Lemma find_player_servers_ceiling_witness :
  exists st,
    run sample_probes "steve" (VStr "0f") [Acquire 1] (sample_state 1) = Some st /\
    (Z.of_nat (in_flight st) <= 1)%Z.
Proof.
  eexists. split; [reflexivity|].
  apply (find_player_servers_ceiling sample_probes "steve" (VStr "0f") 1 [Acquire 1]
           (sample_state 1)); [lia | reflexivity | reflexivity].
Defined.

End Ceiling.

Section Failure.

Lemma delete_replicate {A} (x : A) k n :
  k < n -> delete k (replicate n x) = replicate (pred n) x.
Proof.
  revert k. induction n as [|n IH]; intros k Hk; [lia|].
  destruct k as [|k]; simpl; [reflexivity|].
  destruct n as [|n]; [lia|]. rewrite IH by lia. reflexivity.
Qed.

Lemma check_server_caught player_name player_uuid answer e :
  fetch_json answer = Raise e -> caught e = true ->
  check_server player_name player_uuid (fetch_json answer) = Ok false.
Proof. intros -> He. simpl. rewrite He. reflexivity. Qed.

(** Every interleaving of the lookup has a result once it is run to its
    end. *)
Lemma find_player_servers_total probes player_name player_uuid capacity :
  (1 <= capacity)%Z ->
  exists schedule reqs r,
    find_player_servers probes player_name player_uuid capacity schedule
      = Some (reqs, r).
Proof.
  intros Hcap.
  destruct (init probes capacity) as [st0|e] eqn:Hinit.
  - destruct (run_progress probes player_name player_uuid capacity st0 Hcap
                (init_slots _ _ _ Hinit)) as (rest & st & Hrun & Hall).
    destruct (outcome_finished _ Hall) as [r Hr].
    exists rest, (requests st), r.
    eapply find_player_servers_intro; eassumption.
  - unfold init in Hinit. destruct (Z.ltb_spec capacity 0); [lia | discriminate].
Qed.

(** C2: a probe that ends in a network error or a timeout does not put
    its server on the list; the lookup still has a result; and the
    results the lookup can have, lists and exceptions alike, are exactly
    those it can have when the failing server is not among the targets. *)
Theorem probe_failure_isolated
    before after target answer e player_name player_uuid capacity :
  fetch_json answer = Raise e -> caught e = true -> (1 <= capacity)%Z ->
  included player_name player_uuid (target, answer) = false /\
  (exists schedule reqs r,
     find_player_servers (before ++ (target, answer) :: after)%list
       player_name player_uuid capacity schedule = Some (reqs, r)) /\
  forall r,
    (exists schedule reqs,
       find_player_servers (before ++ (target, answer) :: after)%list
         player_name player_uuid capacity schedule = Some (reqs, r)) <->
    (exists schedule reqs,
       find_player_servers (before ++ after)%list
         player_name player_uuid capacity schedule = Some (reqs, r)).
Proof.
  intros Hfail Hcaught Hcap.
  pose proof (check_server_caught player_name player_uuid _ _ Hfail Hcaught) as Hverdict.
  remember (before ++ (target, answer) :: after)%list as whole eqn:Hwhole.
  remember (length before) as k eqn:Hkdef.
  assert (Hk : whole !! k = Some (target, answer))
    by (subst; apply list_lookup_middle; reflexivity).
  assert (Hpart : delete k whole = (before ++ after)%list)
    by (subst; apply delete_middle).
  clear Hwhole Hkdef.
  assert (Hlen : k < length whole).
  { apply lookup_lt_is_Some_1. eauto. }
  split; [unfold included; simpl; rewrite Hverdict; reflexivity|].
  split; [apply find_player_servers_total; assumption|].
  intros r. rewrite <- Hpart. split.
  - intros (schedule & reqs & Hfind).
    apply find_player_servers_inv in Hfind
      as [[Hneg _] | (st0 & st & _ & Hinit & Hrun & Hout & _)]; [lia|].
    unfold init in Hinit. destruct (Z.ltb_spec capacity 0) as [|Hpos]; [lia|].
    injection Hinit as <-.
    set (part0 := {| tasks := replicate (length (delete k whole)) Pending;
                     semaphore := capacity; matches := []; raised := None;
                     requests := [] |}).
    assert (Hrel : related k Pending
                     {| tasks := replicate (length whole) Pending;
                        semaphore := capacity; matches := []; raised := None;
                        requests := [] |} part0).
    { split; simpl; try reflexivity.
      - rewrite delete_replicate, length_delete by eauto. f_equal. lia.
      - apply lookup_replicate_2. assumption.
      - lia. }
    destruct (run_without whole k target answer player_name player_uuid Hk Hverdict
                _ _ _ _ _ Hrel Hrun) as (t' & part & Hrun' & Hrel').
    exists (omap (without k) schedule), (requests part).
    apply (find_player_servers_intro _ _ _ _ _ part0 part); [|assumption|].
    + unfold init. destruct (Z.ltb_spec capacity 0); [lia | reflexivity].
    + eapply related_outcome; eassumption.
  - intros (schedule & reqs & Hfind).
    apply find_player_servers_inv in Hfind
      as [[Hneg _] | (part0 & part & _ & Hinit & Hrun & Hout & _)]; [lia|].
    unfold init in Hinit. destruct (Z.ltb_spec capacity 0) as [|Hpos]; [lia|].
    injection Hinit as <-.
    set (whole0 := {| tasks := replicate (length whole) Pending;
                      semaphore := capacity; matches := []; raised := None;
                      requests := [] |}).
    set (whole2 := {| tasks := <[k := Finished]> (<[k := InFlight]> (tasks whole0));
                      semaphore := capacity - 1 + 1; matches := []; raised := None;
                      requests := [StatusGet (address target)] |}).
    assert (Hfirst : run whole player_name player_uuid [Acquire k; Complete k] whole0
                     = Some whole2).
    { simpl. rewrite lookup_replicate_2, Hk by assumption.
      destruct (Z.ltb_spec 0 capacity); [|lia]. simpl.
      rewrite list_lookup_insert_eq by (rewrite length_replicate; assumption).
      rewrite ?Hk, Hverdict. reflexivity. }
    assert (Hrel : related k Finished whole2
                     {| tasks := replicate (length (delete k whole)) Pending;
                        semaphore := capacity; matches := []; raised := None;
                        requests := [] |}).
    { split; simpl; try reflexivity.
      - rewrite !delete_insert_same, delete_replicate, length_delete by eauto.
        f_equal. lia.
      - apply list_lookup_insert_eq. rewrite length_insert, length_replicate.
        assumption.
      - lia. }
    destruct (run_with whole k player_name player_uuid _ _ _ _ Hrel Hrun)
      as (whole' & Hrun' & Hrel').
    exists ([Acquire k; Complete k] ++ (reindex (shift k) <$> schedule))%list,
           (requests whole').
    apply (find_player_servers_intro _ _ _ _ _ whole0 whole').
    + unfold init. destruct (Z.ltb_spec capacity 0); [lia | reflexivity].
    + rewrite run_app, Hfirst. assumption.
    + eapply related_outcome_finished; eassumption.
Qed.

Lemma probe_failure_isolated_witness :
  included "steve" (VStr "0f") (server_b, unreachable) = false /\
  exists schedule reqs,
    find_player_servers [(server_a, answered payload_a)] "steve" (VStr "0f") 1
      schedule = Some (reqs, Ok [server_a]).
Proof.
  destruct (probe_failure_isolated [(server_a, answered payload_a)] [] server_b
              unreachable ClientError "steve" (VStr "0f") 1)
    as (Hout & _ & Hsame); [reflexivity | reflexivity | lia |].
  split; [exact Hout|].
  apply Hsame.
  exists [Acquire 1; Complete 1; Acquire 0; Complete 0],
         [StatusGet (VStr "b.example"); StatusGet (VStr "a.example")].
  reflexivity.
Defined.

End Failure.

Section Resolver.

Variable config : BotConfig.
Variable directory : string -> result response.
Variable statuses : nat -> result response.

Local Abbreviation command := (procurar true config directory statuses).
Local Abbreviation lookup := (search config statuses).

Lemma procurar_identifier jogador schedule :
  servers config <> [] -> re_match UUID_REGEX jogador = true ->
  command jogador schedule = lookup [] jogador (VStr jogador) schedule.
Proof.
  unfold procurar. simpl.
  destruct (servers config); [congruence|]. intros _ ->. reflexivity.
Qed.

Lemma procurar_name jogador schedule :
  servers config <> [] -> re_match UUID_REGEX jogador = false ->
  command jogador schedule =
  match fetch_uuid_for_name (directory jogador) with
  | Raise e => Some ([DirectoryGet jogador], Raise e)
  | Ok VNone => Some ([DirectoryGet jogador], Ok (PlayerNotFound jogador))
  | Ok player_uuid => lookup [DirectoryGet jogador] jogador player_uuid schedule
  end.
Proof.
  unfold procurar. simpl.
  destruct (servers config); [congruence|]. intros _ ->. reflexivity.
Qed.

Lemma find_player_servers_requests probes player_name player_uuid capacity schedule reqs r :
  find_player_servers probes player_name player_uuid capacity schedule = Some (reqs, r) ->
  Forall is_status_get reqs.
Proof.
  intros Hfind.
  apply find_player_servers_inv in Hfind
    as [(_ & _ & ->) | (st0 & st & _ & Hinit & Hrun & _ & ->)].
  - constructor.
  - apply (run_invariant probes player_name player_uuid
             (fun st => Forall is_status_get (requests st))) with (3 := Hrun).
    + intros a s s' Hs Hstep.
      apply step_inv in Hstep
        as (i & t & ans & _ &
            [(_ & _ & _ & _ & _ & _ & _ & ->) | (_ & _ & _ & _ & _ & _ & ->)]);
        [|assumption].
      apply Forall_app. split; [assumption|]. constructor; [exact I | constructor].
    + unfold init in Hinit. destruct (capacity <? 0)%Z; [discriminate|].
      injection Hinit as <-. constructor.
Qed.

Lemma search_requests sent player_name player_uuid schedule events out :
  lookup sent player_name player_uuid schedule = Some (events, out) ->
  exists reqs, events = (sent ++ reqs)%list /\ Forall is_status_get reqs.
Proof.
  unfold search.
  destruct (find_player_servers _ _ _ _ _) as [[reqs r]|] eqn:Hfind; [|discriminate].
  apply find_player_servers_requests in Hfind.
  destruct r as [[|]|]; intros [= <- <-]; eauto.
Qed.

(** An input that is not accepted by the pattern is looked up in the
    directory before anything else. *)
Lemma procurar_name_lookup jogador schedule events out :
  servers config <> [] -> re_match UUID_REGEX jogador = false ->
  command jogador schedule = Some (events, out) ->
  exists reqs, events = DirectoryGet jogador :: reqs /\ Forall is_status_get reqs.
Proof.
  intros Hs Hre. rewrite (procurar_name _ _ Hs Hre).
  destruct (fetch_uuid_for_name (directory jogador)) as [[]|].
  1: intros [= <- <-]; exists []; split; [reflexivity | constructor].
  7: intros [= <- <-]; exists []; split; [reflexivity | constructor].
  all: intros H; apply search_requests in H as (reqs & -> & Hreqs); eauto.
Qed.

(** An input accepted by the pattern never reaches the directory. *)
Lemma procurar_identifier_no_lookup jogador schedule events out :
  servers config <> [] -> re_match UUID_REGEX jogador = true ->
  command jogador schedule = Some (events, out) ->
  Forall is_status_get events.
Proof.
  intros Hs Hre. rewrite (procurar_identifier _ _ Hs Hre).
  intros H. apply search_requests in H as (reqs & -> & Hreqs). exact Hreqs.
Qed.

End Resolver.
Section Identifier.

Lemma normalize_uuid_idem x : normalize_uuid (normalize_uuid x) = normalize_uuid x.
Proof.
  unfold normalize_uuid.
  rewrite remove_hyphens_lower, remove_hyphens_idem. apply lower_idem.
Qed.

Lemma hex_digit_not_hyphen c : is_hex_digit c = true -> Ascii.eqb c "-" = false.
Proof. destruct c as [[] [] [] [] [] [] [] []]; vm_compute; congruence. Qed.

Lemma hex_group_first n s :
  hex_group (S n) s -> exists c rest, s = String c rest /\ is_hex_digit c = true.
Proof.
  intros [Hlen Hall]. destruct s as [|c rest]; [discriminate|].
  simpl in Hall. apply andb_true_iff in Hall as [Hc _]. eauto.
Qed.

Lemma identifier_shaped_first s :
  identifier_shaped s -> exists c rest, s = String c rest /\ is_hex_digit c = true.
Proof.
  intros [H | (a & b & c & d & e & -> & Ha & _)].
  - eapply hex_group_first, H.
  - apply hex_group_first in Ha as (x & rest & -> & Hx). simpl. eauto.
Qed.

Lemma re_match_first s :
  re_match UUID_REGEX s = true ->
  exists c rest, s = String c rest /\ is_hex_digit c = true.
Proof.
  intros H. apply re_match_UUID_REGEX in H as (core & Hcore & Hs).
  apply identifier_shaped_first in Hcore as (c & rest & -> & Hc).
  destruct Hs as [-> | ->]; simpl; eauto.
Qed.

Lemma identifier_shaped_length s :
  identifier_shaped s -> String.length s = 32 \/ String.length s = 36.
Proof.
  intros [[H _] | (a & b & c & d & e & -> & [Ha _] & [Hb _] & [Hc _] & [Hd _] & [He _])].
  - auto.
  - right. unfold hyphenated. rewrite !append_length. simpl. lia.
Qed.

Lemma check_payload_ext player_name u u' payload :
  truthy u = truthy u' -> normalize_uuid_dyn u = normalize_uuid_dyn u' ->
  check_payload player_name u payload = check_payload player_name u' payload.
Proof.
  intros Ht Hn. unfold check_payload.
  destruct (get payload "online") as [flag|]; simpl; [|reflexivity].
  destruct (truthy flag); simpl; [|reflexivity].
  destruct (extract_players payload) as [[names uuids]|]; simpl; [|reflexivity].
  destruct (mapM (str_method lower) names) as [lowered|]; simpl; [|reflexivity].
  rewrite Ht, Hn. reflexivity.
Qed.

(** Passing the identifier as typed or in its normalized form makes no
    difference to what a payload yields. *)
Lemma check_payload_normalized player_name id payload :
  re_match UUID_REGEX id = true ->
  check_payload player_name (VStr id) payload =
  check_payload player_name (VStr (normalize_uuid id)) payload.
Proof.
  intros Hid. apply check_payload_ext.
  - apply re_match_first in Hid as (c & rest & -> & Hc).
    unfold normalize_uuid. simpl. rewrite (hex_digit_not_hyphen _ Hc). reflexivity.
  - unfold normalize_uuid_dyn. simpl. rewrite normalize_uuid_idem. reflexivity.
Qed.

Lemma check_server_normalized player_name id fetched :
  re_match UUID_REGEX id = true ->
  check_server player_name (VStr id) fetched =
  check_server player_name (VStr (normalize_uuid id)) fetched.
Proof.
  intros Hid. destruct fetched; simpl; [|reflexivity].
  apply check_payload_normalized. assumption.
Qed.

Lemma step_ext probes player_name u u' :
  (forall fetched, check_server player_name u fetched = check_server player_name u' fetched) ->
  forall a st, step probes player_name u a st = step probes player_name u' a st.
Proof.
  intros H [i|i] st; simpl; [reflexivity|].
  destruct (tasks st !! i) as [[]|]; try reflexivity.
  destruct (probes !! i) as [[t ans]|]; try reflexivity.
  rewrite H. reflexivity.
Qed.

Lemma run_ext probes player_name u u' :
  (forall fetched, check_server player_name u fetched = check_server player_name u' fetched) ->
  forall schedule st,
    run probes player_name u schedule st = run probes player_name u' schedule st.
Proof.
  intros H schedule. induction schedule as [|a rest IH]; intros st; simpl; [reflexivity|].
  rewrite (step_ext probes player_name u u' H).
  destruct (step probes player_name u' a st); [apply IH | reflexivity].
Qed.

Lemma search_ext config statuses sent player_name u u' schedule :
  (forall fetched, check_server player_name u fetched = check_server player_name u' fetched) ->
  search config statuses sent player_name u schedule =
  search config statuses sent player_name u' schedule.
Proof.
  intros H. unfold search, find_player_servers.
  destruct (init _ _); [|reflexivity].
  rewrite (run_ext _ player_name u u' H). reflexivity.
Qed.

(** C4 fails on an identifier followed by a line feed: [$] accepts it, so
    the command takes the 33 characters for an identifier and sends
    nothing to the directory, although they are not in the format. *)
Theorem procurar_trailing_newline :
  re_match UUID_REGEX newline_terminated = true /\
  ~ identifier_shaped newline_terminated /\
  procurar true sample_bot empty_directory sample_statuses newline_terminated
    sample_schedule
  = Some ([StatusGet (VStr "b.example"); StatusGet (VStr "a.example")], Ok NoMatch).
Proof.
  split; [reflexivity|]. split; [|reflexivity].
  intros H. apply identifier_shaped_length in H as [H | H]; discriminate.
Qed.

(** The command is the resolver followed by the lookup. *)
Lemma procurar_resolve config directory statuses jogador schedule :
  servers config <> [] ->
  procurar true config directory statuses jogador schedule =
  match resolve directory jogador with
  | (sent, Ok (Identity player_name player_uuid)) =>
      search config statuses sent player_name player_uuid schedule
  | (sent, Ok Unknown) => Some (sent, Ok (PlayerNotFound jogador))
  | (sent, Raise e) => Some (sent, Raise e)
  end.
Proof.
  unfold procurar, resolve. simpl.
  destruct (servers config); [congruence|]. intros _.
  destruct (re_match UUID_REGEX jogador); [reflexivity|].
  destruct (fetch_uuid_for_name (directory jogador)) as [[]|]; reflexivity.
Qed.

(** C5: for an input in the identifier format the resolver asks the
    directory nothing and hands the input on as it is, as display name
    and as identifier, and the lookup runs with these.  The normal form
    is taken by [check_server] at each comparison: a payload that is
    processed puts its server on the list exactly when it reports the
    server online and lists the input by name, or holds an identifier
    that equals the input once the hyphens are stripped from both and
    both are lowercased. *)
Theorem resolve_identifier str_lower directory jogador :
  re_match UUID_REGEX jogador = true ->
  resolve directory jogador = ([], Ok (Identity jogador (VStr jogador))) /\
  (forall config statuses schedule,
     servers config <> [] ->
     procurar true config directory statuses jogador schedule
       = search config statuses [] jogador (VStr jogador) schedule) /\
  forall payload b,
    check_payload_via str_lower jogador (VStr jogador) payload = Ok b ->
    (b = true <->
     reports_online payload /\
     (name_on_roster str_lower jogador payload \/
      exists names uuids entry,
        extract_players payload = Ok (names, uuids) /\
        In (VStr entry) uuids /\
        str_lower (remove_hyphens jogador) = str_lower (remove_hyphens entry))).
Proof.
  intros Hid. split; [unfold resolve; rewrite Hid; reflexivity|]. split.
  - intros config statuses schedule Hservers. apply procurar_identifier; assumption.
  - intros payload b Hb.
    assert (Hne : jogador <> "").
    { apply re_match_first in Hid as (c & rest & -> & _). discriminate. }
    split.
    + intros ->. apply check_payload_via_sound in Hb as [Honline [Hname | Hident]].
      * auto.
      * split; [assumption|]. right.
        destruct Hident as (names & uuids & id & entry & Hex & [= <-] & _ & Hin & Heq).
        exists names, uuids, entry. auto.
    + intros [Honline Hlisted].
      apply (check_payload_via_complete _ _ _ _ _ Hb Honline).
      destruct Hlisted as [Hname | (names & uuids & entry & Hex & Hin & Heq)];
        [left; assumption|].
      right. exists names, uuids, jogador, entry. auto.
Qed.

(** A hyphenated identifier with capitals, and a server whose roster has
    it bare and in lower case under [uuid] and names nobody. *)
Lemma resolve_identifier_witness :
  resolve empty_directory sample_id = ([], Ok (Identity sample_id (VStr sample_id))) /\
  (check_payload_via lower sample_id (VStr sample_id) payload_with_id = Ok true ->
   reports_online payload_with_id /\
   (name_on_roster lower sample_id payload_with_id \/
    exists names uuids entry,
      extract_players payload_with_id = Ok (names, uuids) /\
      In (VStr entry) uuids /\
      lower (remove_hyphens sample_id) = lower (remove_hyphens entry))) /\
  check_payload_via lower sample_id (VStr sample_id) payload_with_id = Ok true.
Proof.
  destruct (resolve_identifier lower empty_directory sample_id)
    as (Hresolve & _ & Hcompare); [vm_compute; reflexivity|].
  split; [exact Hresolve|]. split; [|vm_compute; reflexivity].
  intros Hb. apply (Hcompare payload_with_id true Hb). reflexivity.
Defined.

(** C5 as stated fails: for a hyphenated identifier with capitals, the
    identifier the resolver hands to the lookup is the input as typed,
    which is not its normal form. *)
Lemma resolve_identifier_raw :
  re_match UUID_REGEX sample_id = true /\
  resolve empty_directory sample_id = ([], Ok (Identity sample_id (VStr sample_id))) /\
  normalize_uuid sample_id = "aaaaaaaaaaaaaaaaaaaaaaaaaaaa0123" /\
  VStr sample_id <> VStr (normalize_uuid sample_id).
Proof.
  split; [vm_compute; reflexivity|]. split; [vm_compute; reflexivity|].
  split; [vm_compute; reflexivity|]. vm_compute. discriminate.
Qed.

(** C10: the directory lookup yields [None] on status 204 and also on a
    2xx answer whose JSON object has no [id]; in either case the command
    answers that the player was not found, having sent the directory
    request and no probe. *)
Theorem directory_answer_without_id :
  (forall r, status r = 204%Z -> fetch_uuid_for_name (Ok r) = Ok VNone) /\
  (forall r fields,
     (200 <= status r < 300)%Z -> json r = Ok (VDict fields) ->
     assoc "id" fields = None ->
     fetch_uuid_for_name (Ok r) = Ok VNone) /\
  (forall config directory statuses jogador schedule,
     servers config <> [] ->
     re_match UUID_REGEX jogador = false ->
     fetch_uuid_for_name (directory jogador) = Ok VNone ->
     procurar true config directory statuses jogador schedule
     = Some ([DirectoryGet jogador], Ok (PlayerNotFound jogador))).
Proof.
  split; [|split].
  - intros r Hr. unfold fetch_uuid_for_name. simpl. rewrite Hr. reflexivity.
  - intros r fields Hr Hjson Hid. unfold fetch_uuid_for_name, raise_for_status. simpl.
    destruct (Z.eqb_spec (status r) 204); [reflexivity|].
    destruct (Z.leb_spec 400 (status r)); [lia|]. simpl.
    rewrite Hjson. simpl. unfold get, get_default. rewrite Hid. reflexivity.
  - intros config directory statuses jogador schedule Hs Hre Hnone.
    rewrite (procurar_name _ _ _ _ _ Hs Hre), Hnone. reflexivity.
Qed.

Lemma directory_answer_without_id_witness :
  fetch_uuid_for_name (empty_directory "Nope") = Ok VNone /\
  procurar true sample_bot empty_directory sample_statuses "Nope" sample_schedule
  = Some ([DirectoryGet "Nope"], Ok (PlayerNotFound "Nope")).
Proof.
  destruct directory_answer_without_id as (_ & Hbody & Hcommand).
  assert (H : fetch_uuid_for_name (empty_directory "Nope") = Ok VNone).
  { apply (Hbody {| status := 200; json := Ok (VDict []) |} []);
      [simpl; lia | reflexivity | reflexivity]. }
  split; [exact H|].
  apply Hcommand; [discriminate | reflexivity | exact H].
Defined.

End Identifier.

Section ConfigExtras.

Lemma iter_iterable v : (exists items, iter v = Ok items) <-> iterable v = true.
Proof.
  destruct v; simpl; split; intros H; try discriminate; eauto;
    destruct H as [? H]; discriminate.
Qed.

Lemma iter_not_iterable v : iterable v = false -> iter v = Raise TypeError.
Proof. destruct v; simpl; intros H; try discriminate; reflexivity. Qed.

(** X1: [load_config] raises [FileNotFoundError] when the file is
    missing, passes on what reading the file raises, and otherwise
    succeeds exactly on an object whose [servers] (an empty list when
    absent) can be iterated and whose [discord_token] is truthy; a
    missing or empty token behind iterable servers is a [ValueError], and
    servers that cannot be iterated are a [TypeError] whatever the token. *)
Theorem load_config_outcomes :
  load_config None = Raise FileNotFoundError /\
  (forall e, load_config (Some (Raise e)) = Raise e) /\
  (forall file,
     (exists cfg, load_config file = Ok cfg) <->
     exists fields,
       file = Some (Ok (VDict fields)) /\
       iterable (field_or (VList []) "servers" fields) = true /\
       truthy (field_or VNone "discord_token" fields) = true) /\
  (forall fields,
     iterable (field_or (VList []) "servers" fields) = true ->
     truthy (field_or VNone "discord_token" fields) = false ->
     load_config (Some (Ok (VDict fields))) = Raise ValueError) /\
  (forall fields,
     iterable (field_or (VList []) "servers" fields) = false ->
     load_config (Some (Ok (VDict fields))) = Raise TypeError).
Proof.
  split; [reflexivity|]. split; [reflexivity|]. split; [|split].
  - intros file. split.
    + intros [cfg H]. destruct (load_config_dict _ _ H) as [fields ->].
      exists fields. split; [reflexivity|].
      unfold load_config, field_or in *. simpl in H.
      destruct (iter _) as [entries|] eqn:Hiter; simpl in H; [|discriminate].
      split; [apply iter_iterable; eauto|].
      destruct (truthy _); [reflexivity | discriminate].
    + intros (fields & -> & Hs & Ht). unfold load_config, field_or in *. simpl.
      apply iter_iterable in Hs as [entries ->]. simpl. rewrite Ht. simpl. eauto.
  - intros fields Hs Ht. unfold load_config, field_or in *. simpl.
    apply iter_iterable in Hs as [entries ->]. simpl. rewrite Ht. reflexivity.
  - intros fields Hs. unfold load_config, field_or in *. simpl.
    rewrite (iter_not_iterable _ Hs). reflexivity.
Qed.

Lemma load_config_outcomes_witness :
  (exists cfg, load_config (Some (Ok two_entry_config)) = Ok cfg) /\
  load_config (Some (Ok (VDict [("servers", VList [])]))) = Raise ValueError /\
  load_config (Some (Ok (VDict [("discord_token", VStr "t"); ("servers", VNone)])))
    = Raise TypeError.
Proof.
  destruct load_config_outcomes as (_ & _ & Hok & Htoken & Hservers).
  split; [|split].
  - apply Hok. eexists. split; [reflexivity|]. split; reflexivity.
  - apply Htoken; reflexivity.
  - apply Hservers; reflexivity.
Defined.

Lemma server_of_spec entry t :
  server_of entry = Some t <->
  exists fields,
    entry = VDict fields /\
    assoc "name" fields = Some (name t) /\ assoc "address" fields = Some (address t) /\
    well_formed_target t.
Proof.
  unfold server_of, well_formed_target. destruct entry; try (split; [discriminate|]);
    try (intros (? & [=] & _)).
  destruct (assoc "name" fields) as [n|] eqn:Hn;
    destruct (assoc "address" fields) as [a|] eqn:Ha; simpl.
  - destruct (truthy n) eqn:Htn; destruct (truthy a) eqn:Hta; simpl; split;
      try discriminate.
    + intros [= <-]. exists fields. simpl. auto.
    + intros (fs & [= <-] & H1 & H2 & _ & _). destruct t. simpl in *. congruence.
    + intros (fs & [= <-] & H1 & H2 & _ & H4). rewrite Ha in H2. congruence.
    + intros (fs & [= <-] & H1 & H2 & H3 & _). rewrite Hn in H1. congruence.
    + intros (fs & [= <-] & H1 & H2 & H3 & _). rewrite Hn in H1. congruence.
  - split; [destruct (truthy n); discriminate|].
    intros (fs & [= <-] & H1 & H2 & _). congruence.
  - split; [discriminate|]. intros (fs & [= <-] & H1 & H2 & _). congruence.
  - split; [discriminate|]. intros (fs & [= <-] & H1 & H2 & _). congruence.
Qed.

(** X2: a loaded configuration has a truthy token, and its servers are,
    in the order of the file, the entries that are objects with a truthy
    [name] and a truthy [address]: every server kept is well formed and
    comes from such an entry, every such entry is kept, and nothing is
    added. *)
Theorem load_config_servers file cfg :
  load_config file = Ok cfg ->
  truthy (token cfg) = true /\
  Forall well_formed_target (servers cfg) /\
  exists fields entries,
    file = Some (Ok (VDict fields)) /\
    iter (field_or (VList []) "servers" fields) = Ok entries /\
    servers cfg = omap server_of entries /\
    length (servers cfg) <= length entries /\
    (forall t, In t (servers cfg) <->
       exists efields,
         In (VDict efields) entries /\
         assoc "name" efields = Some (name t) /\
         assoc "address" efields = Some (address t) /\
         well_formed_target t).
Proof.
  intros H. destruct (load_config_dict _ _ H) as [fields ->].
  unfold load_config, field_or in *. simpl in H.
  destruct (iter _) as [entries|] eqn:Hiter; simpl in H; [|discriminate].
  destruct (truthy (from_option id VNone (assoc "discord_token" fields))) eqn:Ht;
    simpl in H; [|discriminate].
  injection H as <-. simpl.
  assert (Hmem : forall t, In t (omap server_of entries) <->
            exists efields,
              In (VDict efields) entries /\
              assoc "name" efields = Some (name t) /\
              assoc "address" efields = Some (address t) /\
              well_formed_target t).
  { intros t. rewrite <- list_elem_of_In, list_elem_of_omap. split.
    - intros (entry & Hin & Hs). apply server_of_spec in Hs as (fs & -> & ?).
      exists fs. split; [apply list_elem_of_In; assumption | assumption].
    - intros (fs & Hin & Hrest). exists (VDict fs).
      split; [apply list_elem_of_In; assumption|].
      apply server_of_spec. eauto. }
  split; [assumption|]. split.
  - apply List.Forall_forall. intros t Ht'. apply Hmem in Ht' as (? & _ & _ & _ & Hw).
    exact Hw.
  - exists fields, entries. split; [reflexivity|]. split; [exact Hiter|].
    split; [reflexivity|]. split; [|exact Hmem].
    clear. induction entries as [|entry rest IH]; csimpl; [lia|].
    destruct (server_of entry); csimpl; lia.
Qed.

Lemma load_config_servers_witness :
  exists cfg,
    load_config (Some (Ok two_entry_config)) = Ok cfg /\
    Forall well_formed_target (servers cfg).
Proof.
  eexists. split; [reflexivity|].
  apply (load_config_servers (Some (Ok two_entry_config))). reflexivity.
Defined.

End ConfigExtras.

Section IdentifierExtras.

(** X3: [UUID_REGEX.match] accepts exactly the strings made of 32
    hexadecimal characters, bare or grouped 8-4-4-4-12 by hyphens, and
    the same strings followed by one line feed. *)
Theorem UUID_REGEX_accepts s :
  re_match UUID_REGEX s = true <->
  exists core, identifier_shaped core /\ (s = core \/ s = core ++ line_feed).
Proof.
  split.
  - intros H. apply re_match_UUID_REGEX. exact H.
  - intros H. apply re_match_UUID_REGEX. exact H.
Qed.

Lemma lower_hex_digit c :
  is_hex_digit c = true ->
  is_lower_hex_digit (lower_char c) = true /\ is_hex_digit (lower_char c) = true.
Proof. destruct c as [[] [] [] [] [] [] [] []]; vm_compute; intros H; try discriminate; auto. Qed.

Lemma hex_group_plain n s :
  hex_group n s ->
  remove_hyphens s = s /\ String.length (lower s) = n /\
  all_lower_hex (lower s) = true /\ all_hex (lower s) = true.
Proof.
  intros [<- Hall]. induction s as [|c s IH]; simpl in *; [auto|].
  apply andb_true_iff in Hall as [Hc Hs].
  destruct (IH Hs) as (Hr & Hl & Hlow & Hhex).
  rewrite (hex_digit_not_hyphen _ Hc), Hr, Hl.
  destruct (lower_hex_digit _ Hc) as [-> ->]. simpl. auto.
Qed.

Lemma all_hex_app s t : all_hex (s ++ t) = all_hex s && all_hex t.
Proof.
  induction s as [|c s IH]; simpl; [reflexivity|].
  rewrite IH, andb_assoc. reflexivity.
Qed.

Lemma hex_group_app n m s t :
  hex_group n s -> hex_group m t -> hex_group (n + m) (s ++ t).
Proof.
  intros [Hn Hs] [Hm Ht]. split.
  - rewrite append_length. congruence.
  - rewrite all_hex_app, Hs, Ht. reflexivity.
Qed.

(** X4: the normalized form of a string in the identifier format is 32
    characters long, made of digits and the letters a to f in lower case
    only, and is itself accepted by [UUID_REGEX]. *)
Theorem normalize_uuid_identifier s :
  identifier_shaped s ->
  String.length (normalize_uuid s) = 32 /\
  all_lower_hex (normalize_uuid s) = true /\
  re_match UUID_REGEX (normalize_uuid s) = true.
Proof.
  intros Hs.
  assert (Hbare : exists u, hex_group 32 u /\ normalize_uuid s = lower u).
  { destruct Hs as [H | (a & b & c & d & e & -> & Ha & Hb & Hc & Hd & He)].
    - exists s. split; [assumption|]. unfold normalize_uuid.
      destruct (hex_group_plain _ _ H) as [-> _]. reflexivity.
    - exists (unhyphenated a b c d e). split.
      + unfold unhyphenated.
        apply (hex_group_app 8 24); [assumption|].
        apply (hex_group_app 4 20); [assumption|].
        apply (hex_group_app 4 16); [assumption|].
        apply (hex_group_app 4 12); assumption.
      + unfold normalize_uuid. rewrite remove_hyphens_hyphenated.
        assert (Hu : hex_group 32 (unhyphenated a b c d e)).
        { unfold unhyphenated.
          apply (hex_group_app 8 24); [assumption|].
          apply (hex_group_app 4 20); [assumption|].
          apply (hex_group_app 4 16); [assumption|].
          apply (hex_group_app 4 12); assumption. }
        destruct (hex_group_plain _ _ Hu) as [-> _]. reflexivity. }
  destruct Hbare as (u & Hu & ->).
  destruct (hex_group_plain _ _ Hu) as (_ & Hlen & Hlow & Hhex).
  split; [assumption|]. split; [assumption|].
  apply re_match_UUID_REGEX. exists (lower u). split; [|auto].
  left. split; assumption.
Qed.

Lemma normalize_uuid_identifier_witness :
  String.length (normalize_uuid sample_id) = 32 /\
  all_lower_hex (normalize_uuid sample_id) = true /\
  re_match UUID_REGEX (normalize_uuid sample_id) = true.
Proof.
  apply normalize_uuid_identifier. right.
  exists "AAAAAAAA", "aaaa", "aaaa", "aaaa", "aaaaaaaa0123".
  repeat split.
Defined.




End IdentifierExtras.

Section CoordinatorExtras.

Variable probes : list (ServerTarget * result response).
Variable player_name : string.
Variable player_uuid : value.

Local Abbreviation step := (step probes player_name player_uuid).
Local Abbreviation run := (run probes player_name player_uuid).
Local Abbreviation find := (find_player_servers probes player_name player_uuid).
Local Abbreviation verdict answer := (check_server player_name player_uuid (fetch_json answer)).

Lemma all_finished_lookup (l : list task) :
  (forall i, i < length l -> l !! i = Some Finished) -> forallb is_finished l = true.
Proof.
  intros H. apply forallb_forall. intros t Ht.
  apply list_elem_of_In, list_elem_of_lookup in Ht as [i Hi].
  rewrite (H i) in Hi by (apply lookup_lt_is_Some_1; eauto).
  injection Hi as <-. reflexivity.
Qed.

Lemma run_length schedule st st' :
  run schedule st = Some st' -> length (tasks st') = length (tasks st).
Proof.
  revert st. induction schedule as [|a rest IH]; intros st; simpl.
  - intros [= <-]. reflexivity.
  - destruct (step a st) as [st1|] eqn:Ha; [|discriminate]. intros H.
    rewrite (IH _ H).
    apply step_inv in Ha
      as (i & t & ans & _ & [(_ & _ & _ & -> & _) | (_ & _ & -> & _)]);
      apply length_insert.
Qed.

(** No exception is recorded by a run whose completed probes all gave a
    verdict. *)
Lemma run_raised_none schedule st st' :
  run schedule st = Some st' -> raised st = None ->
  (forall i target answer,
     i ∈ completed schedule -> probes !! i = Some (target, answer) ->
     exists b, verdict answer = Ok b) ->
  raised st' = None.
Proof.
  revert st. induction schedule as [|a rest IH]; intros st; simpl.
  - intros [= <-] H _. exact H.
  - destruct (step a st) as [st1|] eqn:Ha; [|discriminate].
    intros Hrun Hnone Hall.
    apply step_inv in Ha as (i & target & answer & Hp &
      [(-> & _ & _ & _ & _ & _ & Hr1 & _) | (-> & _ & _ & _ & _ & Hr1 & _)]).
    + apply (IH st1 Hrun); [congruence|]. exact Hall.
    + apply (IH st1 Hrun).
      * rewrite Hr1, Hnone.
        destruct (Hall i target answer) as [b ->]; [|assumption|reflexivity].
        change (completed (Complete i :: rest)) with (i :: completed rest).
        apply elem_of_cons. auto.
      * intros j tj aj Hj. apply Hall.
        change (completed (Complete i :: rest)) with (i :: completed rest).
        apply elem_of_cons. auto.
Qed.

(** An exception recorded by a run was raised by one of its completed
    probes. *)
Lemma run_raised_some schedule st st' e :
  run schedule st = Some st' -> raised st = None -> raised st' = Some e ->
  exists i target answer,
    i ∈ completed schedule /\ probes !! i = Some (target, answer) /\
    verdict answer = Raise e.
Proof.
  revert st. induction schedule as [|a rest IH]; intros st; simpl.
  - intros [= <-] H H'. congruence.
  - destruct (step a st) as [st1|] eqn:Ha; [|discriminate].
    intros Hrun Hnone Hsome.
    apply step_inv in Ha as (i & target & answer & Hp &
      [(-> & _ & _ & _ & _ & _ & Hr1 & _) | (-> & _ & _ & _ & _ & Hr1 & _)]).
    + apply (IH st1 Hrun); congruence.
    + change (completed (Complete i :: rest)) with (i :: completed rest).
      rewrite Hnone in Hr1.
      destruct (verdict answer) as [b|e1] eqn:Hv.
      * destruct (IH st1 Hrun Hr1 Hsome) as (j & tj & aj & Hj & Hpj & Hvj).
        exists j, tj, aj. split; [apply elem_of_cons; auto | auto].
      * assert (Hkeep : forall s s1 s',
                  run s s1 = Some s' -> raised s1 = Some e1 -> raised s' = Some e1).
        { clear. intros s. induction s as [|a s IHs]; intros s1 s'; simpl.
          - intros [= <-]. auto.
          - destruct (step a s1) as [s2|] eqn:Ha; [|discriminate].
            intros Hrun Hr. apply (IHs s2 s' Hrun).
            apply step_inv in Ha as (i & t & ans & _ &
              [(_ & _ & _ & _ & _ & _ & -> & _) | (_ & _ & _ & _ & _ & -> & _)]);
              rewrite Hr; reflexivity. }
        rewrite (Hkeep _ _ _ Hrun Hr1) in Hsome. injection Hsome as <-.
        exists i, target, answer. split; [apply elem_of_cons; auto | auto].
Qed.

Lemma completed_all_at_once n order : completed (all_at_once n order) = order.
Proof.
  unfold all_at_once, completed. rewrite omap_app.
  assert (Hnone : forall l : list nat,
            omap (fun a => match a with Complete i => Some i | Acquire _ => None end)
              (Acquire <$> l) = []).
  { intros l. induction l as [|i l IH]; [reflexivity | exact IH]. }
  rewrite Hnone. simpl.
  induction order as [|i rest IH]; [reflexivity|]. csimpl. f_equal. exact IH.
Qed.

(** Tasks that have not started all start when there is a slot for each. *)
Lemma run_acquire_all m : forall k st,
  (forall i, k <= i < k + m -> tasks st !! i = Some Pending /\ is_Some (probes !! i)) ->
  (Z.of_nat m <= semaphore st)%Z ->
  exists st',
    run (Acquire <$> seq k m) st = Some st' /\
    raised st' = raised st /\
    (forall i, k <= i < k + m -> tasks st' !! i = Some InFlight) /\
    (forall i, ~ (k <= i < k + m) -> tasks st' !! i = tasks st !! i).
Proof.
  induction m as [|m IH]; intros k st Hpending Hsem.
  { exists st. simpl. repeat split; auto. intros i Hi. lia. }
  destruct (Hpending k) as [Hk [[target answer] Hp]]; [lia|].
  assert (Hlt : k < length (tasks st)) by (apply lookup_lt_is_Some_1; eauto).
  csimpl. rewrite Hk, Hp. destruct (Z.ltb_spec 0 (semaphore st)); [|lia].
  match goal with |- context [run _ ?s] => set (st1 := s) end.
  destruct (IH (S k) st1) as (st' & Hrun & Hraised & Hin & Hout).
  - intros i Hi. simpl. rewrite list_lookup_insert_ne by lia. apply Hpending. lia.
  - simpl. lia.
  - exists st'. split; [exact Hrun|]. split; [exact Hraised|]. split.
    + intros i Hi. destruct (decide (i = k)) as [-> | Hne].
      * rewrite Hout by lia. simpl. apply list_lookup_insert_eq. assumption.
      * apply Hin. lia.
    + intros i Hi. rewrite Hout by lia. simpl.
      apply list_lookup_insert_ne. lia.
Qed.

(** Tasks whose request is out finish in any order. *)
Lemma run_complete_all order : forall st,
  NoDup order ->
  (forall i, i ∈ order -> tasks st !! i = Some InFlight /\ is_Some (probes !! i)) ->
  exists st', run (Complete <$> order) st = Some st'.
Proof.
  induction order as [|i rest IH]; intros st Hnd Hflying; [simpl; eauto|].
  apply NoDup_cons in Hnd as [Hi Hnd].
  destruct (Hflying i) as [Hti [[target answer] Hpi]]; [apply elem_of_cons; auto|].
  csimpl. rewrite Hti, Hpi.
  apply IH; [assumption|].
  intros j Hj. simpl.
  assert (j <> i) by (intros ->; contradiction).
  rewrite list_lookup_insert_ne by congruence.
  apply Hflying. apply elem_of_cons. auto.
Qed.

(** What a run has sent, read off its schedule. *)
Lemma run_requests schedule st st' :
  run schedule st = Some st' ->
  NoDup (acquired schedule) /\
  (forall i, i ∈ acquired schedule ->
     tasks st !! i = Some Pending /\ is_Some (probes !! i)) /\
  (forall i, tasks st' !! i = Some Pending <->
     tasks st !! i = Some Pending /\ i ∉ acquired schedule) /\
  requests st' =
    (requests st ++ (status_request <$> omap (fun i => probes !! i) (acquired schedule)))%list.
Proof.
  revert st. induction schedule as [|a rest IH]; intros st; simpl.
  { intros [= <-]. rewrite app_nil_r.
    split; [constructor|]. split; [intros i Hi; inversion Hi|].
    split; [|reflexivity]. intros i. rewrite elem_of_nil. tauto. }
  destruct (step a st) as [st1|] eqn:Ha; [|discriminate].
  intros Hrun. destruct (IH _ Hrun) as (Hnd & Hfresh & Hpend & Hreq). clear IH.
  apply step_inv in Ha as (i & target & answer & Hp &
    [(-> & Hi & _ & Ht & _ & _ & _ & Hq) | (-> & Hi & Ht & _ & _ & _ & Hq)]).
  - assert (Hlt : i < length (tasks st)) by (apply lookup_lt_is_Some_1; eauto).
    assert (Hnow : tasks st1 !! i = Some InFlight).
    { rewrite Ht. apply list_lookup_insert_eq. assumption. }
    assert (Hother : forall j, j <> i -> tasks st1 !! j = tasks st !! j).
    { intros j Hj. rewrite Ht. apply list_lookup_insert_ne. congruence. }
    change (acquired (Acquire i :: rest)) with (i :: acquired rest).
    split.
    { apply NoDup_cons. split; [|assumption].
      intros Hin. apply Hfresh in Hin as [Hpi _]. congruence. }
    split.
    { intros j. rewrite elem_of_cons. intros [-> | Hj]; [eauto|].
      destruct (Hfresh j Hj) as [Hpj Hsome]. split; [|assumption].
      destruct (decide (j = i)) as [-> | Hne]; [congruence|].
      rewrite <- (Hother j Hne). assumption. }
    split.
    { intros j. rewrite Hpend, not_elem_of_cons.
      destruct (decide (j = i)) as [-> | Hne].
      - rewrite Hnow. split; [intros [[=] _] | intros [_ [? _]]; congruence].
      - rewrite (Hother j Hne). tauto. }
    rewrite Hreq, Hq. simpl. rewrite Hp. simpl. rewrite <- app_assoc. reflexivity.
  - assert (Hlt : i < length (tasks st)) by (apply lookup_lt_is_Some_1; eauto).
    assert (Hnow : tasks st1 !! i = Some Finished).
    { rewrite Ht. apply list_lookup_insert_eq. assumption. }
    assert (Hother : forall j, j <> i -> tasks st1 !! j = tasks st !! j).
    { intros j Hj. rewrite Ht. apply list_lookup_insert_ne. congruence. }
    change (acquired (Complete i :: rest)) with (acquired rest).
    split; [assumption|]. split.
    { intros j Hj. destruct (Hfresh j Hj) as [Hpj Hsome]. split; [|assumption].
      destruct (decide (j = i)) as [-> | Hne]; [congruence|].
      rewrite <- (Hother j Hne). assumption. }
    split; [|congruence].
    intros j. rewrite Hpend.
    destruct (decide (j = i)) as [-> | Hne].
    + rewrite Hnow, Hi. split; intros [[=] _].
    + rewrite (Hother j Hne). tauto.
Qed.

End CoordinatorExtras.
Section CoordinatorResults.

Lemma init_ok probes capacity :
  (0 <= capacity)%Z ->
  init probes capacity =
  Ok {| tasks := replicate (length probes) Pending; semaphore := capacity;
        matches := []; raised := None; requests := [] |}.
Proof. intros H. unfold init. destruct (Z.ltb_spec capacity 0); [lia | reflexivity]. Qed.

Lemma lookup_probe_In {A} (l : list A) i x : l !! i = Some x -> In x l.
Proof. intros H. apply list_elem_of_In. eapply list_elem_of_lookup_2. eassumption. Qed.

(** X6: the list [find_player_servers] returns is in the order in which
    the probes completed: it holds the matching targets of the schedule's
    completions one after the other, and every task completed once. *)
Theorem find_player_servers_completion_order
    probes player_name player_uuid capacity schedule reqs found :
  find_player_servers probes player_name player_uuid capacity schedule
    = Some (reqs, Ok found) ->
  found = appended probes player_name player_uuid (completed schedule) /\
  Permutation (completed schedule) (seq 0 (length probes)).
Proof.
  intros Hfind.
  apply find_player_servers_inv in Hfind
    as [(_ & [=] & _) | (st0 & st & Hcap & Hinit & Hrun & Hout & _)].
  apply outcome_ok in Hout as (_ & Hall & ->).
  split; [|eapply complete_order; eassumption].
  destruct (run_trace _ _ _ _ _ _ Hrun) as (_ & _ & _ & Hm & _).
  rewrite Hm. rewrite init_ok in Hinit by assumption. injection Hinit as <-.
  reflexivity.
Qed.

Lemma find_player_servers_completion_order_witness :
  [server_a] = appended sample_probes "steve" (VStr "0f") (completed sample_schedule).
Proof.
  apply (find_player_servers_completion_order sample_probes "steve" (VStr "0f") 1
           sample_schedule
           [StatusGet (VStr "b.example"); StatusGet (VStr "a.example")] [server_a]).
  reflexivity.
Defined.

(** X7: with a slot for every target, the order of the result is the
    order of the answers, whatever that is.  The tasks all send their
    request at once; when no probe ends in an exception that escapes and
    the answers come in in the order [order], the lookup returns the
    matching targets in that order. *)
Theorem find_player_servers_answer_order
    probes player_name player_uuid capacity order :
  (Z.of_nat (length probes) <= capacity)%Z ->
  Permutation order (seq 0 (length probes)) ->
  (forall target answer,
     In (target, answer) probes ->
     exists b, check_server player_name player_uuid (fetch_json answer) = Ok b) ->
  exists reqs,
    find_player_servers probes player_name player_uuid capacity
      (all_at_once (length probes) order)
      = Some (reqs, Ok (appended probes player_name player_uuid order)).
Proof.
  intros Hcap Hperm Hok.
  pose proof (init_ok probes capacity ltac:(lia)) as Hinit.
  set (st0 := {| tasks := replicate (length probes) Pending; semaphore := capacity;
                 matches := []; raised := None; requests := [] |}) in *.
  assert (Hin : forall i, i ∈ order <-> i < length probes).
  { intros i. rewrite Hperm, elem_of_seq. lia. }
  destruct (run_acquire_all probes player_name player_uuid (length probes) 0 st0)
    as (st1 & Hrun1 & Hraised1 & Hflying & _).
  { intros i Hi. split.
    - apply lookup_replicate_2. lia.
    - apply lookup_lt_is_Some_2. lia. }
  { simpl. lia. }
  destruct (run_complete_all probes player_name player_uuid order st1) as [st Hrun2].
  { rewrite Hperm. apply NoDup_seq. }
  { intros i Hi. apply Hin in Hi. split.
    - apply Hflying. lia.
    - apply lookup_lt_is_Some_2. assumption. }
  assert (Hrun : run probes player_name player_uuid
                   (all_at_once (length probes) order) st0 = Some st).
  { unfold all_at_once. rewrite run_app, Hrun1. exact Hrun2. }
  destruct (run_trace _ _ _ _ _ _ Hrun) as (_ & _ & Hfin & Hm & _).
  rewrite completed_all_at_once in Hfin, Hm.
  assert (Hraised : raised st = None).
  { apply (run_raised_none _ _ _ _ _ _ Hrun); [reflexivity|].
    intros i target answer _ Hp. apply (Hok target answer).
    eapply lookup_probe_In. eassumption. }
  assert (Hall : forallb is_finished (tasks st) = true).
  { apply all_finished_lookup. intros i Hi. apply Hfin. right. apply Hin.
    rewrite (run_length _ _ _ _ _ _ Hrun) in Hi. simpl in Hi.
    rewrite length_replicate in Hi. assumption. }
  exists (requests st).
  rewrite (find_player_servers_intro _ _ _ _ _ _ _ (Ok (matches st)) Hinit Hrun).
  - rewrite Hm. reflexivity.
  - unfold outcome. rewrite Hraised, Hall. reflexivity.
Qed.

(** Two servers that both list the player, two slots, and the answer of
    the second server in first. *)
Lemma find_player_servers_answer_order_witness :
  exists reqs,
    find_player_servers both_match "steve" VNone 2 (all_at_once 2 [1; 0])
      = Some (reqs, Ok [server_b; server_a]).
Proof.
  apply (find_player_servers_answer_order both_match "steve" VNone 2 [1; 0]).
  - simpl. lia.
  - apply perm_swap.
  - intros target answer [[= <- <-] | [[= <- <-] | []]]; exists true; reflexivity.
Defined.

(** X8: when [find_player_servers] returns a list, it has sent exactly
    one status request per target, a target listed twice being asked
    twice. *)
Theorem find_player_servers_one_request_each
    probes player_name player_uuid capacity schedule reqs found :
  find_player_servers probes player_name player_uuid capacity schedule
    = Some (reqs, Ok found) ->
  Permutation reqs (status_request <$> probes).
Proof.
  intros Hfind.
  apply find_player_servers_inv in Hfind
    as [(_ & [=] & _) | (st0 & st & Hcap & Hinit & Hrun & Hout & ->)].
  apply outcome_ok in Hout as (_ & Hall & _).
  rewrite init_ok in Hinit by assumption. injection Hinit as <-.
  destruct (run_requests _ _ _ _ _ _ Hrun) as (Hnd & Hfresh & Hpend & Hreq).
  pose proof (run_length _ _ _ _ _ _ Hrun) as Hlen. simpl in Hlen.
  rewrite length_replicate in Hlen. simpl in *.
  assert (Hperm : Permutation (acquired schedule) (seq 0 (length probes))).
  { apply NoDup_Permutation; [assumption | apply NoDup_seq |].
    intros i. rewrite elem_of_seq. split.
    - intros Hi. apply Hfresh in Hi as [_ Hsome].
      apply lookup_lt_is_Some_1 in Hsome. lia.
    - intros [_ Hi]. simpl in Hi.
      destruct (decide (i ∈ acquired schedule)) as [|Hnot]; [assumption|].
      exfalso.
      assert (Hp : tasks st !! i = Some Pending).
      { apply Hpend. split; [apply lookup_replicate_2; assumption | assumption]. }
      apply (finished_lookup _ _ _ Hall) in Hp. discriminate. }
  rewrite Hreq. simpl. rewrite Hperm.
  pose proof (omap_lookup_seq [] probes) as Hseq. simpl in Hseq. rewrite Hseq.
  reflexivity.
Qed.

Lemma find_player_servers_one_request_each_witness :
  Permutation [StatusGet (VStr "b.example"); StatusGet (VStr "a.example")]
    (status_request <$> sample_probes).
Proof.
  apply (find_player_servers_one_request_each sample_probes "steve" (VStr "0f") 1
           sample_schedule _ [server_a]).
  reflexivity.
Defined.

End CoordinatorResults.

Section CoordinatorEdges.

Lemma mapM_str_method_raise (f : string -> string) (l : list value) e :
  mapM (str_method f) l = Raise e -> e = AttributeError.
Proof.
  induction l as [|v l IH]; simpl; [discriminate|].
  destruct v; simpl; try (intros [= <-]; reflexivity).
  destruct (mapM (str_method f) l); simpl; [discriminate|].
  intros [= <-]. apply IH. reflexivity.
Qed.

Lemma iter_raise v e : iter v = Raise e -> e = TypeError.
Proof. destruct v; simpl; intros [= <-] || discriminate; reflexivity. Qed.

Lemma get_default_raise obj key default e :
  get_default obj key default = Raise e -> e = AttributeError.
Proof. destruct obj; simpl; intros [= <-] || discriminate; reflexivity. Qed.

Lemma extract_players_raise payload e :
  extract_players payload = Raise e -> e = AttributeError \/ e = TypeError.
Proof.
  unfold extract_players, get.
  destruct (get_default payload "players" (VDict [])) as [players|e1] eqn:H1; simpl.
  2: { intros [= <-]. left. eapply get_default_raise. eassumption. }
  destruct (get_default players "list" VNone) as [listed|e2] eqn:H2; simpl.
  2: { intros [= <-]. left. eapply get_default_raise. eassumption. }
  destruct (iter (or_else listed (VList []))) as [entries|e3] eqn:H3; simpl.
  2: { intros [= <-]. right. eapply iter_raise. eassumption. }
  destruct (get_default players "uuid" (VList [])) as [ids|e4] eqn:H4; simpl.
  2: { intros [= <-]. left. eapply get_default_raise. eassumption. }
  destruct (iter (or_else ids (VList []))) as [id_entries|e5] eqn:H5; simpl.
  2: { intros [= <-]. right. eapply iter_raise. eassumption. }
  discriminate.
Qed.

Lemma check_payload_raise player_name player_uuid payload e :
  check_payload player_name player_uuid payload = Raise e ->
  e = AttributeError \/ e = TypeError.
Proof.
  unfold check_payload, get.
  destruct (get_default payload "online" VNone) as [flag|e1] eqn:H1; simpl.
  2: { intros [= <-]. left. eapply get_default_raise. eassumption. }
  destruct (truthy flag); simpl; [|discriminate].
  destruct (extract_players payload) as [[names uuids]|e2] eqn:H2; simpl.
  2: { intros [= <-]. eapply extract_players_raise. eassumption. }
  destruct (mapM (str_method lower) names) as [lowered|e3] eqn:H3; simpl.
  2: { intros [= <-]. left. eapply mapM_str_method_raise. eassumption. }
  destruct (existsb _ lowered); [discriminate|].
  destruct (truthy player_uuid); [|discriminate].
  unfold normalize_uuid_dyn.
  destruct (str_method normalize_uuid player_uuid) as [normalized|e4] eqn:H4; simpl.
  2: { intros [= <-]. left. destruct player_uuid; simpl in H4; congruence. }
  destruct (mapM (str_method normalize_uuid) uuids) as [known|e5] eqn:H5; simpl.
  2: { intros [= <-]. left. eapply mapM_str_method_raise. eassumption. }
  discriminate.
Qed.

Lemma check_server_raise player_name player_uuid fetched e :
  check_server player_name player_uuid fetched = Raise e -> caught e = false.
Proof.
  destruct fetched as [payload|e1]; simpl.
  - intros H. apply check_payload_raise in H as [-> | ->]; reflexivity.
  - destruct (caught e1) eqn:Hc; [discriminate|]. intros [= <-]. assumption.
Qed.

(** X9: a negative [max_concurrency] makes [find_player_servers] raise
    [ValueError] before any request; with [max_concurrency] 0 and at
    least one target no task can ever start, so that no interleaving
    gives a result; without targets the empty list is returned at once. *)
Theorem find_player_servers_capacity_edges player_name player_uuid :
  (forall probes capacity schedule,
     (capacity < 0)%Z ->
     find_player_servers probes player_name player_uuid capacity schedule
       = Some ([], Raise ValueError)) /\
  (forall probes schedule,
     probes <> [] ->
     find_player_servers probes player_name player_uuid 0 schedule = None) /\
  (forall capacity,
     (0 <= capacity)%Z ->
     find_player_servers [] player_name player_uuid capacity [] = Some ([], Ok [])).
Proof.
  split; [|split].
  - intros probes capacity schedule Hneg. unfold find_player_servers, init.
    destruct (Z.ltb_spec capacity 0); [reflexivity | lia].
  - intros probes schedule Hne. unfold find_player_servers. rewrite init_ok by lia.
    destruct probes as [|p probes]; [congruence|].
    destruct schedule as [|a rest]; [reflexivity|]. simpl.
    destruct a as [i|i]; simpl.
    + destruct i as [|i]; simpl.
      * destruct p. reflexivity.
      * destruct (replicate (length probes) Pending !! i) as [[]|];
          destruct (probes !! i) as [[]|]; reflexivity.
    + destruct i as [|i]; simpl; [reflexivity|].
      destruct (replicate (length probes) Pending !! i) as [t|] eqn:Ht; [|reflexivity].
      apply lookup_replicate in Ht as [-> _]. reflexivity.
  - intros capacity Hcap. unfold find_player_servers. rewrite init_ok by assumption.
    reflexivity.
Qed.

Lemma find_player_servers_capacity_edges_witness :
  find_player_servers sample_probes "steve" VNone (-1) sample_schedule
    = Some ([], Raise ValueError) /\
  find_player_servers sample_probes "steve" VNone 0 sample_schedule = None.
Proof.
  destruct (find_player_servers_capacity_edges "steve" VNone) as (Hneg & Hzero & _).
  split; [apply Hneg; lia | apply Hzero; discriminate].
Defined.

(** X10: an exception that a probe lets escape is not isolated.  A
    lookup that returns a list had a verdict from every probe; a lookup
    that raises raises what the processing of one of its probes raised,
    which is never one of the two exceptions [check_server] catches. *)
Theorem find_player_servers_exceptions
    probes player_name player_uuid capacity schedule reqs :
  (forall found,
     find_player_servers probes player_name player_uuid capacity schedule
       = Some (reqs, Ok found) ->
     forall target answer,
       In (target, answer) probes ->
       exists b, check_server player_name player_uuid (fetch_json answer) = Ok b) /\
  (forall e,
     (0 <= capacity)%Z ->
     find_player_servers probes player_name player_uuid capacity schedule
       = Some (reqs, Raise e) ->
     caught e = false /\
     exists target answer,
       In (target, answer) probes /\
       check_server player_name player_uuid (fetch_json answer) = Raise e).
Proof.
  split.
  - intros found Hfind target answer Hin.
    apply find_player_servers_inv in Hfind
      as [(_ & [=] & _) | (st0 & st & Hcap & Hinit & Hrun & Hout & _)].
    apply outcome_ok in Hout as (Hraised & Hall & _).
    pose proof (complete_order _ _ _ _ _ _ _ Hinit Hrun Hall) as Horder.
    destruct (run_trace _ _ _ _ _ _ Hrun) as (_ & _ & _ & _ & Hr).
    destruct (Hr Hraised) as [_ Hverdicts].
    apply list_elem_of_In, list_elem_of_lookup in Hin as [i Hi].
    apply (Hverdicts i target answer); [|assumption].
    rewrite Horder. apply elem_of_seq. apply lookup_lt_Some in Hi. lia.
  - intros e Hcap Hfind.
    apply find_player_servers_inv in Hfind
      as [(Hneg & _) | (st0 & st & _ & Hinit & Hrun & Hout & _)]; [lia|].
    assert (Hraised : raised st = Some e).
    { unfold outcome in Hout. destruct (raised st); [congruence|].
      destruct (forallb is_finished (tasks st)); discriminate. }
    rewrite init_ok in Hinit by assumption. injection Hinit as <-.
    destruct (run_raised_some _ _ _ _ _ _ _ Hrun eq_refl Hraised)
      as (i & target & answer & _ & Hp & Hv).
    split; [eapply check_server_raise; eassumption|].
    exists target, answer. split; [eapply lookup_probe_In; eassumption | exact Hv].
Qed.

Lemma find_player_servers_exceptions_witness :
  find_player_servers mixed_probes "steve" VNone 1 sample_schedule
    = Some ([StatusGet (VStr "b.example"); StatusGet (VStr "a.example")],
            Raise AttributeError) /\
  caught AttributeError = false.
Proof.
  split; [reflexivity|].
  apply (find_player_servers_exceptions mixed_probes "steve" VNone 1 sample_schedule
           [StatusGet (VStr "b.example"); StatusGet (VStr "a.example")]);
    [lia | reflexivity].
Defined.

Lemma filter_none {A} (P : A -> Prop) `{forall x, Decision (P x)} (l : list A) :
  (forall x, In x l -> ~ P x) -> filter P l = [].
Proof.
  induction l as [|x l IH]; intros Hall; [reflexivity|].
  rewrite filter_cons. destruct (decide (P x)) as [Hx | _].
  - exfalso. apply (Hall x); [left; reflexivity | assumption].
  - apply IH. intros y Hy. apply Hall. right. assumption.
Qed.

(** X11: when every probe ends in a network error, a time-out or an
    error status, the lookup has one possible result, the empty list: it
    is no error. *)
Theorem find_player_servers_all_unreachable
    probes player_name player_uuid capacity schedule reqs r :
  (0 <= capacity)%Z ->
  (forall target answer,
     In (target, answer) probes ->
     exists e, fetch_json answer = Raise e /\ caught e = true) ->
  find_player_servers probes player_name player_uuid capacity schedule
    = Some (reqs, r) ->
  r = Ok [].
Proof.
  intros Hcap Hdead Hfind.
  assert (Hverdict : forall target answer,
            In (target, answer) probes ->
            check_server player_name player_uuid (fetch_json answer) = Ok false).
  { intros target answer Hin. destruct (Hdead _ _ Hin) as (e & He & Hc).
    eapply check_server_caught; eassumption. }
  apply find_player_servers_inv in Hfind
    as [(Hneg & _) | (st0 & st & _ & Hinit & Hrun & Hout & _)]; [lia|].
  rewrite init_ok in Hinit by assumption. injection Hinit as <-.
  destruct (raised st) as [e|] eqn:Hraised.
  - destruct (run_raised_some _ _ _ _ _ _ _ Hrun eq_refl Hraised)
      as (i & target & answer & _ & Hp & Hv).
    rewrite (Hverdict target answer) in Hv by (eapply lookup_probe_In; eassumption).
    discriminate.
  - unfold outcome in Hout. rewrite Hraised in Hout.
    destruct (forallb is_finished (tasks st)); [|discriminate].
    injection Hout as <-. f_equal.
    destruct (run_trace _ _ _ _ _ _ Hrun) as (_ & _ & _ & Hm & _).
    rewrite Hm. simpl. unfold appended. rewrite filter_none; [reflexivity|].
    intros [target answer] Hin.
    apply list_elem_of_In, list_elem_of_omap in Hin as (i & _ & Hp).
    unfold included. simpl.
    rewrite (Hverdict target answer) by (eapply lookup_probe_In; eassumption).
    discriminate.
Qed.

Lemma find_player_servers_all_unreachable_witness :
  find_player_servers dead_probes "steve" VNone 1 sample_schedule
    = Some ([StatusGet (VStr "b.example"); StatusGet (VStr "a.example")], Ok []) /\
  (Ok [] : result (list ServerTarget)) = Ok [].
Proof.
  split; [reflexivity|].
  apply (find_player_servers_all_unreachable dead_probes "steve" VNone 1
           sample_schedule
           [StatusGet (VStr "b.example"); StatusGet (VStr "a.example")] (Ok []));
    [lia | | reflexivity].
  intros target answer [[= <- <-] | [[= <- <-] | []]];
    exists ClientError; split; reflexivity.
Defined.

End CoordinatorEdges.

Section CommandExtras.

Lemma started_le (l : list task) : sum_list (started <$> l) <= length l.
Proof. induction l as [|t l IH]; csimpl; [lia|]. destruct t; simpl; lia. Qed.

Lemma find_player_servers_requests_length
    probes player_name player_uuid capacity schedule reqs r :
  find_player_servers probes player_name player_uuid capacity schedule = Some (reqs, r) ->
  length reqs <= length probes.
Proof.
  intros Hfind.
  apply find_player_servers_inv in Hfind
    as [(_ & _ & ->) | (st0 & st & _ & Hinit & Hrun & _ & ->)]; [simpl; lia|].
  pose proof (run_invariant probes player_name player_uuid _
                (step_requests probes player_name player_uuid) _ _ _
                (init_requests _ _ _ Hinit) Hrun) as Hreqs.
  pose proof (run_invariant probes player_name player_uuid _
                (step_slots probes player_name player_uuid capacity) _ _ _
                (init_slots _ _ _ Hinit) Hrun) as (_ & _ & Hlen).
  unfold requests_sent in Hreqs. rewrite Hreqs, <- Hlen. apply started_le.
Qed.

Lemma search_inv config statuses sent player_name player_uuid schedule events out :
  search config statuses sent player_name player_uuid schedule = Some (events, out) ->
  exists reqs r,
    find_player_servers (probes_of statuses (servers config)) player_name player_uuid
      (max_concurrency config) schedule = Some (reqs, r) /\
    events = (sent ++ reqs)%list /\
    out = match r with
          | Ok [] => Ok NoMatch
          | Ok found => Ok (Found found)
          | Raise e => Raise e
          end.
Proof.
  unfold search.
  destruct (find_player_servers _ _ _ _ _) as [[reqs r]|]; [|discriminate].
  intros H. exists reqs, r. split; [reflexivity|].
  destruct r as [[|t found]|e]; injection H as <- <-; auto.
Qed.

Lemma probes_of_targets statuses targets :
  fst <$> probes_of statuses targets = targets.
Proof.
  unfold probes_of. apply list_eq. intros i.
  rewrite list_lookup_fmap, list_lookup_imap.
  destruct (targets !! i); reflexivity.
Qed.

(** X12: a failure of the directory ends the command before any probe.
    An error status (400 or more) or a failed request makes
    [fetch_uuid_for_name] raise, and the command then ends in that
    exception having sent the directory request only. *)
Theorem procurar_directory_failure
    config directory statuses jogador schedule :
  (forall r, (400 <= status r)%Z -> fetch_uuid_for_name (Ok r) = Raise ClientError) /\
  (forall e, fetch_uuid_for_name (Raise e) = Raise e) /\
  (forall e,
     servers config <> [] ->
     re_match UUID_REGEX jogador = false ->
     fetch_uuid_for_name (directory jogador) = Raise e ->
     procurar true config directory statuses jogador schedule
       = Some ([DirectoryGet jogador], Raise e)).
Proof.
  split; [|split].
  - intros r Hr. unfold fetch_uuid_for_name, raise_for_status. simpl.
    destruct (Z.eqb_spec (status r) 204); [lia|].
    destruct (Z.leb_spec 400 (status r)); [reflexivity | lia].
  - reflexivity.
  - intros e Hs Hre He. rewrite (procurar_name _ _ _ _ _ Hs Hre), He. reflexivity.
Qed.

Lemma procurar_directory_failure_witness :
  procurar true sample_bot failing_directory sample_statuses "Steve" sample_schedule
    = Some ([DirectoryGet "Steve"], Raise ClientError).
Proof.
  destruct (procurar_directory_failure sample_bot failing_directory sample_statuses
              "Steve" sample_schedule) as (Hstatus & _ & Hcommand).
  apply Hcommand; [discriminate | reflexivity |].
  apply Hstatus. simpl. lia.
Defined.

(** X13: the requests of one command.  There is at most one directory
    request, for the input as typed, and it comes first; the other
    requests are status requests, no more than there are servers; an
    input accepted by the pattern causes no directory request; nothing is
    sent while the session is missing or no server is configured. *)
Theorem procurar_requests
    ready config directory statuses jogador schedule events out :
  procurar ready config directory statuses jogador schedule = Some (events, out) ->
  exists reqs,
    Forall is_status_get reqs /\
    length reqs <= length (servers config) /\
    (events = reqs \/ events = DirectoryGet jogador :: reqs) /\
    (re_match UUID_REGEX jogador = true -> events = reqs) /\
    (ready = false \/ servers config = [] -> events = []).
Proof.
  unfold procurar. destruct ready; simpl.
  2: { intros [= <- <-]. exists []. repeat split; auto using Forall_nil. simpl. lia. }
  destruct (servers config) as [|t ts] eqn:Hs.
  { intros [= <- <-]. exists []. repeat split; auto using Forall_nil. }
  assert (Hsearch : forall sent u,
            search config statuses sent jogador u schedule = Some (events, out) ->
            exists reqs,
              events = (sent ++ reqs)%list /\ Forall is_status_get reqs /\
              length reqs <= length (t :: ts)).
  { intros sent u H. apply search_inv in H as (reqs & r & Hfind & -> & _).
    exists reqs. split; [reflexivity|]. split.
    - eapply find_player_servers_requests. eassumption.
    - apply find_player_servers_requests_length in Hfind.
      unfold probes_of in Hfind. rewrite length_imap, Hs in Hfind. exact Hfind. }
  assert (Hnone : ~ (true = false \/ t :: ts = [])) by (intros [|]; discriminate).
  destruct (re_match UUID_REGEX jogador) eqn:Hre.
  - intros H. apply Hsearch in H as (reqs & -> & Hall & Hlen).
    exists reqs. repeat split; auto. intros H. contradiction.
  - destruct (fetch_uuid_for_name (directory jogador)) as [u|e].
    + assert (Hgo : search config statuses [DirectoryGet jogador] jogador u schedule
                    = Some (events, out) ->
                    exists reqs,
                      Forall is_status_get reqs /\
                      length reqs <= length (t :: ts) /\
                      (events = reqs \/ events = DirectoryGet jogador :: reqs) /\
                      (false = true -> events = reqs) /\
                      (true = false \/ t :: ts = [] -> events = [])).
      { intros H. apply Hsearch in H as (reqs & -> & Hall & Hlen).
        exists reqs. repeat split; auto; [discriminate | intros H; contradiction]. }
      destruct u; try exact Hgo.
      intros [= <- <-]. exists []. repeat split; auto using Forall_nil.
      * simpl. lia.
      * discriminate.
      * intros H. contradiction.
    + intros [= <- <-]. exists []. repeat split; auto using Forall_nil.
      * simpl. lia.
      * discriminate.
      * intros H. contradiction.
Qed.

Lemma procurar_requests_witness :
  exists reqs,
    Forall is_status_get reqs /\
    length reqs <= 2 /\
    ([DirectoryGet "Nope"] = reqs \/ [DirectoryGet "Nope"] = DirectoryGet "Nope" :: reqs).
Proof.
  destruct (procurar_requests true sample_bot empty_directory sample_statuses "Nope"
              sample_schedule [DirectoryGet "Nope"] (Ok (PlayerNotFound "Nope")) eq_refl)
    as (reqs & Hall & Hlen & Hshape & _).
  exists reqs. auto.
Defined.

Lemma find_ok_permutation probes player_name player_uuid capacity schedule reqs found :
  find_player_servers probes player_name player_uuid capacity schedule
    = Some (reqs, Ok found) ->
  Permutation found
    (fst <$> filter (fun probe => included player_name player_uuid probe = true) probes).
Proof.
  intros Hfind.
  apply find_player_servers_inv in Hfind
    as [(_ & [=] & _) | (st0 & st & Hcap & Hinit & Hrun & Hout & _)].
  apply outcome_ok in Hout as (_ & Hall & ->).
  pose proof (complete_order _ _ _ _ _ _ _ Hinit Hrun Hall) as Horder.
  destruct (run_trace _ _ _ _ _ _ Hrun) as (_ & _ & _ & Hm & _).
  rewrite Hm. rewrite init_ok in Hinit by assumption. injection Hinit as <-.
  simpl. unfold appended.
  pose proof (omap_lookup_seq [] probes) as Hseq. simpl in Hseq.
  rewrite Horder, Hseq. reflexivity.
Qed.

(** X14: the servers the command reports are configured servers: a
    [Found] reply is never empty and is, up to order, a sub-list of the
    configured servers, hence no longer than the configuration and
    without any server that is not configured. *)
Theorem procurar_found_configured
    ready config directory statuses jogador schedule events found :
  procurar ready config directory statuses jogador schedule
    = Some (events, Ok (Found found)) ->
  found <> [] /\
  (exists kept, sublist kept (servers config) /\ Permutation found kept) /\
  (forall t, In t found -> In t (servers config)) /\
  length found <= length (servers config).
Proof.
  intros H.
  assert (Hsearch : exists sent u,
            search config statuses sent jogador u schedule
              = Some (events, Ok (Found found))).
  { unfold procurar in H. destruct ready; simpl in H; [|discriminate].
    destruct (servers config); [discriminate|].
    destruct (re_match UUID_REGEX jogador); [eauto|].
    destruct (fetch_uuid_for_name (directory jogador)) as [u|]; [|discriminate].
    destruct u; try discriminate; eauto. }
  destruct Hsearch as (sent & u & Hsearch).
  apply search_inv in Hsearch as (reqs & r & Hfind & _ & Hout).
  destruct r as [[|t rest]|e]; try discriminate.
  injection Hout as ->.
  apply find_ok_permutation in Hfind.
  set (kept := fst <$> filter (fun probe => included jogador u probe = true)
                         (probes_of statuses (servers config))) in *.
  assert (Hsub : sublist kept (servers config)).
  { rewrite <- (probes_of_targets statuses (servers config)).
    unfold kept. apply fmap_sublist, sublist_filter. }
  split; [discriminate|]. split; [eauto|]. split.
  - intros x Hx. apply list_elem_of_In. apply list_elem_of_In in Hx.
    rewrite Hfind in Hx. eapply sublist_subseteq; eassumption.
  - rewrite Hfind. apply sublist_length. assumption.
Qed.

Lemma procurar_found_configured_witness :
  [server_b; server_a] <> [] /\
  length [server_b; server_a] <= length (servers sample_bot).
Proof.
  destruct (procurar_found_configured true sample_bot empty_directory id_statuses
              sample_id sample_schedule
              [StatusGet (VStr "b.example"); StatusGet (VStr "a.example")]
              [server_b; server_a]) as (Hne & _ & _ & Hlen).
  - vm_compute. reflexivity.
  - split; assumption.
Defined.

End CommandExtras.

Section RosterExtras.

Lemma names_of_strings items :
  Forall (fun v => is_str v = true) items -> names_of items = items.
Proof.
  induction 1 as [|v items Hv _ IH]; [reflexivity|].
  destruct v; try discriminate. simpl. rewrite IH. reflexivity.
Qed.

Lemma uuids_of_strings items :
  Forall (fun v => is_str v = true) items -> uuids_of items = items.
Proof.
  induction 1 as [|v items Hv _ IH]; [reflexivity|].
  destruct v; try discriminate. simpl. rewrite IH. reflexivity.
Qed.

Lemma iter_or_else_list items : iter (or_else (VList items) (VList [])) = Ok items.
Proof. destruct items; reflexivity. Qed.

(** X16: rosters made of bare strings come out as they are: when [list]
    and [uuid] are arrays of strings, [extract_players] returns exactly
    these two arrays, order, duplicates and empty strings included. *)
Theorem extract_players_strings fields pfields items ids :
  assoc "players" fields = Some (VDict pfields) ->
  assoc "list" pfields = Some (VList items) ->
  assoc "uuid" pfields = Some (VList ids) ->
  Forall (fun v => is_str v = true) items ->
  Forall (fun v => is_str v = true) ids ->
  extract_players (VDict fields) = Ok (items, ids).
Proof.
  intros Hp Hl Hu Hitems Hids. unfold extract_players, get, get_default.
  rewrite Hp. simpl. rewrite Hl. simpl. rewrite iter_or_else_list. simpl.
  rewrite Hu. simpl. rewrite iter_or_else_list. simpl.
  rewrite (names_of_strings _ Hitems), (uuids_of_strings _ Hids). reflexivity.
Qed.

Lemma extract_players_strings_witness :
  extract_players string_roster
    = Ok ([VStr "Steve"; VStr ""; VStr "Steve"], [VStr "0F-0f"]).
Proof.
  apply (extract_players_strings
           [("players",
             VDict [("list", VList [VStr "Steve"; VStr ""; VStr "Steve"]);
                    ("uuid", VList [VStr "0F-0f"])])]
           [("list", VList [VStr "Steve"; VStr ""; VStr "Steve"]);
            ("uuid", VList [VStr "0F-0f"])]);
    try reflexivity; repeat constructor.
Defined.

(** X17: when [extract_players] fails.  It succeeds exactly on an object
    whose [players] (an empty object when absent) is an object and whose
    [list] and [uuid], unless falsy, can be iterated; a [players] that is
    present without being an object, [null] included, is an
    [AttributeError], and a truthy [list] or [uuid] that cannot be
    iterated is a [TypeError]. *)
Theorem extract_players_outcomes :
  (forall payload,
     (exists names uuids, extract_players payload = Ok (names, uuids)) <->
     exists fields pfields,
       payload = VDict fields /\
       field_or (VDict []) "players" fields = VDict pfields /\
       iterable (or_else (field_or VNone "list" pfields) (VList [])) = true /\
       iterable (or_else (field_or (VList []) "uuid" pfields) (VList [])) = true) /\
  (forall fields v,
     assoc "players" fields = Some v -> is_object v = false ->
     extract_players (VDict fields) = Raise AttributeError) /\
  (forall fields pfields,
     field_or (VDict []) "players" fields = VDict pfields ->
     iterable (or_else (field_or VNone "list" pfields) (VList [])) = false \/
     iterable (or_else (field_or (VList []) "uuid" pfields) (VList [])) = false ->
     extract_players (VDict fields) = Raise TypeError).
Proof.
  split; [|split].
  - intros payload. split.
    + intros (names & uuids & H). unfold extract_players, get, get_default in H.
      destruct payload as [| | | | | |fields]; try discriminate. simpl in H.
      exists fields.
      destruct (from_option id (VDict []) (assoc "players" fields))
        as [| | | | | |pfields] eqn:Hp; try discriminate.
      exists pfields. split; [reflexivity|]. split; [exact Hp|]. simpl in H.
      unfold field_or.
      destruct (iter (or_else (from_option id VNone (assoc "list" pfields)) (VList [])))
        as [entries|] eqn:Hl; simpl in H; [|discriminate].
      destruct (iter (or_else (from_option id (VList []) (assoc "uuid" pfields)) (VList [])))
        as [id_entries|] eqn:Hu; simpl in H; [|discriminate].
      split; apply iter_iterable; eauto.
    + intros (fields & pfields & -> & Hp & Hl & Hu). unfold field_or in *.
      apply iter_iterable in Hl as [entries Hl]. apply iter_iterable in Hu as [ids Hu].
      unfold extract_players, get, get_default. simpl. rewrite Hp. simpl.
      rewrite Hl. simpl. rewrite Hu. simpl. eauto.
  - intros fields v Hv Hobj. unfold extract_players, get, get_default. simpl.
    rewrite Hv. simpl. destruct v; try reflexivity. discriminate.
  - intros fields pfields Hp Hbad. unfold field_or in *.
    unfold extract_players, get, get_default. simpl. rewrite Hp. simpl.
    destruct Hbad as [Hl | Hu].
    + rewrite (iter_not_iterable _ Hl). reflexivity.
    + destruct (iter (or_else (from_option id VNone (assoc "list" pfields)) (VList [])))
        as [entries|e] eqn:Hl; simpl.
      * rewrite (iter_not_iterable _ Hu). reflexivity.
      * apply iter_raise in Hl as ->. reflexivity.
Qed.

Lemma extract_players_outcomes_witness :
  extract_players malformed_payload = Raise AttributeError /\
  extract_players (VDict [("players", VDict [("uuid", VInt 7)])]) = Raise TypeError.
Proof.
  destruct extract_players_outcomes as (_ & Hplayers & Hrosters).
  split.
  - apply (Hplayers _ VNone); reflexivity.
  - apply (Hrosters _ [("uuid", VInt 7)]); [reflexivity | right; reflexivity].
Defined.

End RosterExtras.

Section MatchingExtras.




End MatchingExtras.
